(** * Balance-log reconstruction and analysis: a model of [main.py]

    The development follows the program top-down.

    - [Re]: the fragment of Python's [re] the program's patterns use, as a
      backtracking matcher that lists its successes in priority order.
    - [parse_logs] and [_extract_record]: the START/END block reconstruction.
    - [analyze]: the derived columns, the grouped computations and the
      per-user summary, with the [KeyError] a missing column raises.

    Conventions.  A text is a list of characters; a character is a code point
    below 256, so text with code points above the Latin-1 range is outside the
    model.  A Python [float] is a binary64 value, that is Rocq's primitive
    [float]; [NaN] is pandas' missing number.  A missing object cell ([NaN] in
    an object column, or [None]) is [None]; [NaT] is [None] too. *)

From Stdlib Require Import ZArith List String Ascii Bool Arith Lia Permutation Sorted.
From Stdlib Require Import Floats.
Import ListNotations.

Set Implicit Arguments.
Set Warnings "-inexact-float".

(** ** Texts *)

Definition text := list ascii.

Definition T (s : string) : text := list_ascii_of_string s.

(** [str.isspace] on code points below 256; [\s] of a [str] pattern is the
    same class. *)
Definition isspace (c : ascii) : bool :=
  let n := nat_of_ascii c in
  ((9 <=? n) && (n <=? 13)) || ((28 <=? n) && (n <=? 32)) || (n =? 133) || (n =? 160).

(** [\d] on code points below 256: the ten ASCII digits. *)
Definition isdigit (c : ascii) : bool :=
  let n := nat_of_ascii c in (48 <=? n) && (n <=? 57).

Definition newline : ascii := "010"%char.
Definition dquote : ascii := "034"%char.
Definition squote : ascii := "039"%char.

Fixpoint lstrip (s : text) : text :=
  match s with
  | c :: s' => if isspace c then lstrip s' else s
  | [] => []
  end.

Definition rstrip (s : text) : text := rev (lstrip (rev s)).

(** [s.strip()] *)
Definition strip (s : text) : text := rstrip (lstrip s).

(** [sep.join(lines)] *)
Fixpoint join (sep : text) (lines : list text) : text :=
  match lines with
  | [] => []
  | [l] => l
  | l :: rest => l ++ sep ++ join sep rest
  end.

(** [s.split(c)[0]]: the text before the first [c], all of [s] without one. *)
Fixpoint split_head (c : ascii) (s : text) : text :=
  match s with
  | [] => []
  | x :: s' => if Ascii.eqb x c then [] else x :: split_head c s'
  end.

(** [c in s] *)
Definition contains (c : ascii) (s : text) : bool := existsb (Ascii.eqb c) s.

(** ** The regular expressions of the program *)

Module Re.

Definition cls := ascii -> bool.

(** The constructs the patterns of [parse_logs] are written with.  A
    quantifier only ever applies to a character class there. *)
Inductive regex : Type :=
| Chr (p : cls)                (* one character of a class *)
| Lit (l : text)               (* a literal *)
| LitI (l : text)              (* a literal under re.I *)
| Cat (r1 r2 : regex)
| Alt (r1 r2 : regex)          (* r1|r2 *)
| Opt (p : cls)                (* p?  (greedy) *)
| Star (p : cls)               (* p*  (greedy) *)
| Plus (p : cls)               (* p+  (greedy) *)
| Times (n : nat) (p : cls)    (* p{n} *)
| Group (r : regex).           (* the pattern's capturing group *)

Definition lower (c : ascii) : ascii :=
  let n := nat_of_ascii c in
  if (65 <=? n) && (n <=? 90) then ascii_of_nat (n + 32) else c.

Fixpoint lit_rest (eq : ascii -> ascii -> bool) (l s : text) : option text :=
  match l, s with
  | [], _ => Some s
  | a :: l', c :: s' => if eq a c then lit_rest eq l' s' else None
  | _ :: _, [] => None
  end.

Fixpoint times_rest (n : nat) (p : cls) (s : text) : option text :=
  match n with
  | O => Some s
  | S n' =>
      match s with
      | c :: s' => if p c then times_rest n' p s' else None
      | [] => None
      end
  end.

(** What is left of [s] after [p*], the longest repetition first: the order in
    which a greedy quantifier gives characters back. *)
Fixpoint star_rests (p : cls) (s : text) : list text :=
  match s with
  | c :: s' => if p c then star_rests p s' ++ [s] else [s]
  | [] => [[]]
  end.

Definition plus_rests (p : cls) (s : text) : list text :=
  match s with
  | c :: s' => if p c then star_rests p s' else []
  | [] => []
  end.

Definition capture := option text.

(** Every way [r] matches a prefix of [s], as (rest of [s], group 1), in the
    order a backtracking matcher tries them; the head is the match. *)
Fixpoint run (r : regex) (s : text) (g : capture) : list (text * capture) :=
  match r with
  | Chr p =>
      match s with
      | c :: s' => if p c then [(s', g)] else []
      | [] => []
      end
  | Lit l =>
      match lit_rest Ascii.eqb l s with Some s' => [(s', g)] | None => [] end
  | LitI l =>
      match lit_rest (fun a c => Ascii.eqb (lower a) (lower c)) l s with
      | Some s' => [(s', g)]
      | None => []
      end
  | Cat r1 r2 => flat_map (fun sg => run r2 (fst sg) (snd sg)) (run r1 s g)
  | Alt r1 r2 => run r1 s g ++ run r2 s g
  | Opt p =>
      match s with
      | c :: s' => if p c then [(s', g); (s, g)] else [(s, g)]
      | [] => [(s, g)]
      end
  | Star p => map (fun s' => (s', g)) (star_rests p s)
  | Plus p => map (fun s' => (s', g)) (plus_rests p s)
  | Times n p =>
      match times_rest n p s with Some s' => [(s', g)] | None => [] end
  | Group r1 =>
      map (fun sg => (fst sg, Some (firstn (List.length s - List.length (fst sg)) s)))
          (run r1 s g)
  end.

(** [pat.match(s)], as [m.group(1)] of the match. *)
Definition match_ (r : regex) (s : text) : option capture :=
  match run r s None with
  | (_, g) :: _ => Some g
  | [] => None
  end.

(** [pat.search(s)]: the match at the leftmost position that has one. *)
Fixpoint search (r : regex) (s : text) : option capture :=
  match match_ r s with
  | Some g => Some g
  | None =>
      match s with
      | [] => None
      | _ :: s' => search r s'
      end
  end.

Fixpoint seq (rs : list regex) : regex :=
  match rs with
  | [] => Lit []
  | [r] => r
  | r :: rs' => Cat r (seq rs')
  end.

End Re.

Import Re.

(** The character classes of the patterns. *)

Definition dot : cls := fun c => negb (Ascii.eqb c newline).          (* .            *)
Definition hexdash : cls := fun c =>                                  (* [0-9a-f\-]   *)
  let n := nat_of_ascii c in
  isdigit c || ((97 <=? n) && (n <=? 102)) || (n =? 45).
Definition numch : cls := fun c =>                                    (* [0-9\.\-]    *)
  let n := nat_of_ascii c in isdigit c || (n =? 46) || (n =? 45).
Definition not_squote : cls := fun c => negb (Ascii.eqb c squote).    (* [^']         *)
(** The negated class of the JSON-style patterns: anything but a double
    quote, a comma, a single quote or a closing brace. *)
Definition json_val : cls := fun c =>
  negb (Ascii.eqb c dquote || Ascii.eqb c ","%char
        || Ascii.eqb c squote || Ascii.eqb c "}"%char).
Definition is_dquote : cls := fun c => Ascii.eqb c dquote.

(** [^\d{4}-\d{2}-\d{2}T.*<word> RequestId:\s+(?P<rid>[0-9a-f\-]{36})]; the
    leading [^] adds nothing under [match], which tries position 0 only. *)
Definition marker_re (word : string) : regex :=
  seq [Times 4 isdigit; Lit (T "-"); Times 2 isdigit; Lit (T "-");
       Times 2 isdigit; Lit (T "T"); Star dot;
       Lit (T word ++ T " RequestId:"); Plus isspace;
       Group (Times 36 hexdash)].

Definition start_re : regex := marker_re "START".
Definition end_re : regex := marker_re "END".

(** [fields_patterns], in the dict's order. *)
Definition num_field (name : string) : regex :=
  seq [Lit (T name ++ T ":"); Star isspace; Group (Plus numch)].

Definition quoted_field (name : string) : regex :=
  seq [Lit (T name ++ T ":"); Star isspace; Lit [squote];
       Group (Plus not_squote); Lit [squote]].

Definition json_field (name : string) : regex :=
  seq [Lit ([dquote] ++ T name ++ [dquote] ++ T ":"); Opt is_dquote;
       Group (Plus json_val)].

Definition fields_patterns : list (string * regex) :=
  [ ("paymentBalance", num_field "paymentBalance");
    ("updatePaymentBalance",
       seq [LitI (T "updatePaymentBalance:"); Star isspace;
            Group (Alt (LitI (T "true")) (LitI (T "false")))]);
    ("oldBalance", num_field "oldBalance");
    ("newBalance", num_field "newBalance");
    ("amount", num_field "amount");
    ("action", quoted_field "action");
    ("transactionAction", quoted_field "transactionAction");
    ("walletId", json_field "walletId");
    ("userId", quoted_field "userId");
    ("email", json_field "email");
    ("id", json_field "id") ]%string.

(** ** Records and block reconstruction *)

Fixpoint text_eqb (a b : text) : bool :=
  match a, b with
  | [], [] => true
  | x :: a', y :: b' => Ascii.eqb x y && text_eqb a' b'
  | _, _ => false
  end.

(** The dict [_extract_record] builds: the three keys it always sets, and the
    fields whose pattern matched, in the order of [fields_patterns]. *)
Record record : Type := {
  requestId : text;
  file : text;
  start_ts : option text;
  extracted : list (string * text)
}.

Fixpoint assoc (k : string) (kvs : list (string * text)) : option text :=
  match kvs with
  | [] => None
  | (k', v) :: rest => if String.eqb k k' then Some v else assoc k rest
  end.

(** [rec.get(k)] for a pattern's key. *)
Definition rec_get (k : string) (r : record) : option text := assoc k (extracted r).

(** The group of each pattern takes part in every match of it, so
    [m.group(1)] is a text whenever [m] is a match. *)
Definition _extract_record (txt rid gz : text) (ts : option text)
    (patterns : list (string * regex)) : record :=
  {| requestId := rid;
     file := gz;
     start_ts := ts;
     extracted :=
       flat_map (fun kp =>
                   match search (snd kp) txt with
                   | Some (Some v) => [(fst kp, v)]
                   | _ => []
                   end) patterns |}.

(** The loop variables of [parse_logs] for one file, and the records so far. *)
Record pstate : Type := {
  current_id : option text;
  buffer_lines : list text;
  cur_start_ts : option text;
  records : list record
}.

Definition init_state (recs : list record) : pstate :=
  {| current_id := None; buffer_lines := []; cur_start_ts := None; records := recs |}.

(** Truth value of [current_id]: [None] and the empty text are false. *)
Definition id_truthy (st : pstate) : bool :=
  match current_id st with
  | Some (_ :: _) => true
  | _ => false
  end.

Definition nonempty {A : Type} (l : list A) : bool :=
  match l with [] => false | _ :: _ => true end.

(** [records.append(_extract_record(NL.join(buffer_lines), current_id, gz,
    start_ts, fields_patterns))], under [if current_id and buffer_lines]. *)
Definition flush_open (gz : text) (st : pstate) : list record :=
  match current_id st with
  | Some rid =>
      if id_truthy st && nonempty (buffer_lines st)
      then records st ++ [_extract_record (join [newline] (buffer_lines st)) rid gz
                            (cur_start_ts st) fields_patterns]
      else records st
  | None => records st
  end.

(** [s.split('Z')[0] + 'Z' if 'Z' in s else s[:25]] *)
Definition capture_ts (s : text) : text :=
  if contains "Z"%char s then split_head "Z"%char s ++ T "Z" else firstn 25 s.

Definition same_id (g : capture) (cur : option text) : bool :=
  match g, cur with
  | Some a, Some b => text_eqb a b
  | None, None => true
  | _, _ => false
  end.

(** One iteration of [for raw in f]. *)
Definition step (gz : text) (st : pstate) (raw : text) : pstate :=
  let s := strip raw in
  match match_ start_re s with
  | Some rid =>
      {| current_id := rid;
         buffer_lines := [s];
         cur_start_ts := Some (capture_ts s);
         records := flush_open gz st |}
  | None =>
      match match_ end_re s with
      | Some rid =>
          if id_truthy st && same_id rid (current_id st)
          then init_state
                 (match current_id st with
                  | Some cur =>
                      records st ++ [_extract_record
                                       (join [newline] (buffer_lines st ++ [s])) cur gz
                                       (cur_start_ts st) fields_patterns]
                  | None => records st
                  end)
          else if id_truthy st
               then {| current_id := current_id st;
                       buffer_lines := buffer_lines st ++ [s];
                       cur_start_ts := cur_start_ts st;
                       records := records st |}
               else st
      | None =>
          if id_truthy st
          then {| current_id := current_id st;
                  buffer_lines := buffer_lines st ++ [s];
                  cur_start_ts := cur_start_ts st;
                  records := records st |}
          else st
      end
  end.

(** The body of [for gz in gz_files] on a file whose lines are [lines],
    continuing from the records [recs] of the files before it. *)
Definition parse_file (gz : text) (lines : list text) (recs : list record) : list record :=
  flush_open gz (fold_left (step gz) lines (init_state recs)).

(** [parse_logs] on the files [sorted(rglob)] lists, each given with the lines
    reading it yields.  A file that cannot be read is outside the model. *)
Definition parse_logs (gz_files : list (text * list text)) : list record :=
  fold_left (fun recs f => parse_file (fst f) (snd f) recs) gz_files [].

(** ** Numbers *)

Open Scope float_scope.

(** The binary64 value nearest to [m / 10^k] (ties to even, overflow to an
    infinity), signed by [neg]: what [float] gives on a decimal numeral, whose
    conversion is correctly rounded. *)
Definition dec_to_float (neg : bool) (m : Z) (k : nat) : float :=
  match m with
  | Zpos p =>
      SF2Prim (SFdiv prec emax (S754_finite neg p 0)
                 (S754_finite false (Z.to_pos (10 ^ Z.of_nat k)) 0))
  | _ => if neg then neg_zero else zero
  end.

Fixpoint digits_value (acc : Z) (s : text) : option Z :=
  match s with
  | [] => Some acc
  | c :: s' =>
      if isdigit c
      then digits_value (10 * acc + Z.of_nat (nat_of_ascii c - 48)) s'
      else None
  end.

(** The numerals [float] accepts among the texts the numeric patterns can
    capture (digits, dots and hyphens): an optional leading hyphen, then
    digits with at most one dot and at least one digit.  The result is
    (negative, digits read as an integer, number of digits after the dot). *)
Definition parse_decimal (s : text) : option (bool * Z * nat) :=
  let neg := match s with c :: _ => Ascii.eqb c "-"%char | [] => false end in
  let body := if neg then tl s else s in
  let ip := split_head "."%char body in
  let fp := tl (skipn (List.length ip) body) in
  if nonempty ip || nonempty fp
  then match digits_value 0 (ip ++ fp) with
       | Some m => Some (neg, m, List.length fp)
       | None => None
       end
  else None.

(** [to_float]: [float(x)], and [NaN] where it raises.  A missing cell is a
    [NaN] already.  The cells it is applied to are captures of the numeric
    patterns. *)
Definition to_float (x : option text) : float :=
  match x with
  | None => nan
  | Some s =>
      match parse_decimal s with
      | Some (neg, m, k) => dec_to_float neg m k
      | None => nan
      end
  end.

Definition notna (x : float) : bool := negb (is_nan x).

(** [x > y] on floats. *)
Definition gtb (x y : float) : bool := y <? x.

Definition float_of_nat (n : nat) : float :=
  SF2Prim (binary_normalize prec emax (Z.of_nat n) 0 false).

(** [vals.sum()], adding from the left (the library's order of additions can
    differ from it in the last bits on eight values or more). *)
Definition fsum (vals : list float) : float := fold_left add vals 0.

(** [vals.mean()] *)
Definition mean (vals : list float) : float :=
  fsum vals / float_of_nat (List.length vals).

(** [vals.std(ddof=1)]: the root of the summed squared deviations from the
    mean over [n - 1]. *)
Definition std (vals : list float) : float :=
  let avg := mean vals in
  sqrt (fsum (map (fun v => (avg - v) * (avg - v)) vals)
        / float_of_nat (List.length vals - 1)).

(** ** The frame *)

Inductive exn : Type := KeyError (key : string).

Inductive outcome (A : Type) : Type :=
| Ok (a : A)
| Raise (e : exn).

Arguments Ok {A} a.
Arguments Raise {A} e.

Definition bind {A B : Type} (x : outcome A) (f : A -> outcome B) : outcome B :=
  match x with
  | Ok a => f a
  | Raise e => Raise e
  end.

Notation "x <- c ;; k" := (bind c (fun x => k))
  (at level 61, c at next level, right associativity).

(** [c in df.columns] for the frame [pd.DataFrame(records)]: a pattern's key
    is a column when some record has it. *)
Definition has_col (c : string) (recs : list record) : bool :=
  existsb (fun r => match rec_get c r with Some _ => true | None => false end) recs.

(** [df[c]] raises [KeyError] without the column. *)
Definition require (c : string) (recs : list record) : outcome unit :=
  if has_col c recs then Ok tt else Raise (KeyError c).

(** A row of the frame after line 120: its index label, the record it comes
    from, and the columns computed so far. *)
Record event : Type := {
  idx : nat;
  src : record;
  ts : option Z;
  paymentBalance : float;
  oldBalance : float;
  newBalance : float;
  amount : float;
  delta : float;
  amount_sign : float;
  expected_delta : float;
  mismatch : bool;
  overdraft_before : bool;
  overdraft_after : bool;
  overdraft_cross : bool
}.

Definition userId (e : event) : option text := rec_get "userId" (src e).
Definition walletId (e : event) : option text := rec_get "walletId" (src e).

Definition best_sign (amt dlt : float) : float :=
  if is_nan amt || is_nan dlt then nan
  else if abs (dlt - amt) <=? abs (dlt + amt) then 1 else -1.

Definition event_of (i : nat) (r : record) (t : option Z) : event :=
  let old := to_float (rec_get "oldBalance" r) in
  let new := to_float (rec_get "newBalance" r) in
  let amt := to_float (rec_get "amount" r) in
  let dlt := new - old in
  let sgn := best_sign amt dlt in
  let expd := amt * sgn in
  {| idx := i;
     src := r;
     ts := t;
     paymentBalance := to_float (rec_get "paymentBalance" r);
     oldBalance := old;
     newBalance := new;
     amount := amt;
     delta := dlt;
     amount_sign := sgn;
     expected_delta := expd;
     mismatch := gtb (abs (dlt - expd)) 1e-6;
     overdraft_before := old <? 0;
     overdraft_after := new <? 0;
     overdraft_cross := negb (old <? 0) && (new <? 0) |}.

Fixpoint events_from (i : nat) (recs : list record) (tss : list (option Z)) : list event :=
  match recs with
  | [] => []
  | r :: recs' => event_of i r (hd None tss) :: events_from (S i) recs' (tl tss)
  end.

(** ** Ordering and grouping *)

(** Order of two [str] values: by code point, a proper prefix first. *)
Fixpoint text_cmp (a b : text) : comparison :=
  match a, b with
  | [], [] => Eq
  | [], _ :: _ => Lt
  | _ :: _, [] => Gt
  | x :: a', y :: b' =>
      match Nat.compare (nat_of_ascii x) (nat_of_ascii y) with
      | Eq => text_cmp a' b'
      | c => c
      end
  end.

(** A sort key that may be missing, under [na_position='last']. *)
Definition opt_cmp {A : Type} (cmp : A -> A -> comparison) (a b : option A) : comparison :=
  match a, b with
  | Some x, Some y => cmp x y
  | Some _, None => Lt
  | None, Some _ => Gt
  | None, None => Eq
  end.

(** The next key decides where this one ties. *)
Definition lex (c1 c2 : comparison) : comparison :=
  match c1 with
  | Eq => c2
  | _ => c1
  end.

Definition by_ts_rid (a b : event) : comparison :=
  lex (opt_cmp Z.compare (ts a) (ts b))
      (text_cmp (requestId (src a)) (requestId (src b))).

Definition by_wallet_ts_rid (a b : event) : comparison :=
  lex (opt_cmp text_cmp (walletId a) (walletId b)) (by_ts_rid a b).

(** The keys of line 122: [userId], [walletId], [ts], [requestId]. *)
Definition by_user_wallet_ts_rid (a b : event) : comparison :=
  lex (opt_cmp text_cmp (userId a) (userId b)) (by_wallet_ts_rid a b).

Section Sort.

Variable A : Type.
Variable cmp : A -> A -> comparison.

Definition le_of (a b : A) : bool :=
  match cmp a b with
  | Gt => false
  | _ => true
  end.

Fixpoint insert_sorted (x : A) (l : list A) : list A :=
  match l with
  | [] => [x]
  | y :: l' => if le_of x y then x :: y :: l' else y :: insert_sorted x l'
  end.

(** A stable sort: rows that tie on every key keep their order, as the
    library's sort on several keys does. *)
Fixpoint sort_by (l : list A) : list A :=
  match l with
  | [] => []
  | x :: l' => insert_sorted x (sort_by l')
  end.

End Sort.

Fixpoint dedup (l : list text) : list text :=
  match l with
  | [] => []
  | x :: l' => x :: filter (fun y => negb (text_eqb x y)) (dedup l')
  end.

Definition key_is (key : event -> option text) (k : text) (e : event) : bool :=
  match key e with
  | Some k' => text_eqb k' k
  | None => false
  end.

(** The group keys of [groupby(key)], sorted; a row whose key is missing is in
    no group. *)
Definition group_keys (key : event -> option text) (l : list event) : list text :=
  sort_by text_cmp
    (dedup (flat_map (fun e => match key e with Some k => [k] | None => [] end) l)).

(** The rows of the group [k], in the frame's order. *)
Definition group (key : event -> option text) (k : text) (l : list event) : list event :=
  filter (key_is key k) l.

(** Rows of one [(userId, walletId)] group: both keys present and equal. *)
Definition same_group (a b : event) : bool :=
  match userId a, walletId a, userId b, walletId b with
  | Some u, Some w, Some u', Some w' => text_eqb u u' && text_eqb w w'
  | _, _, _, _ => false
  end.

(** [df.groupby(['userId', 'walletId'])['oldBalance'].shift(-1)]: to each row
    the [oldBalance] of the row that follows it in its group, [NaN] for the
    last row of a group and for a row in no group. *)
Fixpoint shift_next_old (l : list event) : list float :=
  match l with
  | [] => []
  | e :: rest =>
      match find (same_group e) rest with
      | Some e' => oldBalance e'
      | None => nan
      end :: shift_next_old rest
  end.

(** A boolean Series: index label and value. *)
Definition series := list (nat * bool).

Definition series_get (i : nat) (s : series) : option bool :=
  option_map snd (find (fun p => Nat.eqb (fst p) i) s).

Definition all_false (sub : list event) : series := map (fun e => (idx e, false)) sub.

Definition z_anomalies (sub : list event) : series :=
  let vals := filter notna (map delta sub) in
  if (List.length vals <? 5)%nat then all_false sub
  else
    let mu := mean vals in
    let sd := std vals in
    if sd =? 0 then all_false sub
    else map (fun e => (idx e, gtb (abs (delta e - mu)) (3 * sd))) sub.

(** [df.groupby('userId', group_keys=False).apply(f)]: the Series [f] gives
    for each group, one after the other, as the library documents the
    combining step.  (How the library shapes the result of a frame with a
    single group is its own matter and is not modelled.) *)
Definition groupby_apply (f : list event -> series) (l : list event) : series :=
  flat_map (fun k => f (group userId k l)) (group_keys userId l).

(** ** The result *)

(** A row of the enriched frame. *)
Record row : Type := {
  ev : event;
  next_old : float;
  flow_break : bool;
  delta_anomaly : bool
}.

(** A row of [per_user]. *)
Record summary : Type := {
  user : text;
  first_ts : option Z;
  last_ts : option Z;
  events : nat;
  overdraft_events : nat;
  overdraft_crossings : nat;
  mismatches : nat;
  flow_breaks : nat;
  last_balance : float;
  min_balance : float;
  max_balance : float;
  final_overdraft : bool
}.

Record analysis : Type := {
  df : list row;
  per_user : list summary
}.

Definition count_true {A : Type} (f : A -> bool) (l : list A) : nat :=
  List.length (filter f l).

(** [min] and [max] of a column skip the missing values and are missing
    without a value. *)
Definition pick {A : Type} (better : A -> A -> bool) (l : list A) : option A :=
  fold_left (fun acc x =>
               match acc with
               | None => Some x
               | Some a => if better x a then Some x else Some a
               end) l None.

Definition known {A : Type} (l : list (option A)) : list A :=
  flat_map (fun x => match x with Some a => [a] | None => [] end) l.

Definition float_or_nan (x : option float) : float :=
  match x with
  | Some v => v
  | None => nan
  end.

(** [x.dropna().iloc[-1] if len(x.dropna()) else np.nan] *)
Definition last_known (x : list float) : float := last (filter notna x) nan.

Definition summarize (k : text) (g : list row) : summary :=
  let balances := map (fun r => newBalance (ev r)) g in
  let lastb := last_known balances in
  {| user := k;
     first_ts := pick Z.ltb (known (map (fun r => ts (ev r)) g));
     last_ts := pick Z.gtb (known (map (fun r => ts (ev r)) g));
     events := List.length g;
     overdraft_events := count_true (fun r => overdraft_after (ev r)) g;
     overdraft_crossings := count_true (fun r => overdraft_cross (ev r)) g;
     mismatches := count_true (fun r => mismatch (ev r)) g;
     flow_breaks := count_true flow_break g;
     last_balance := lastb;
     min_balance := float_or_nan (pick ltb (filter notna balances));
     max_balance := float_or_nan (pick gtb (filter notna balances));
     final_overdraft := lastb <? 0 |}.

Section Analyze.

(** [pd.to_datetime(column, errors='coerce')], the library's parser: the time
    of each cell as an offset from the epoch, [None] for [NaT]. *)
Variable to_datetime : list (option text) -> list (option Z).

(** Lines 96 to 120.  Line 107 reads [newBalance], then [oldBalance]; line 115
    reads [amount]. *)
Definition enrich (recs : list record) : outcome (list event) :=
  _ <- require "newBalance" recs ;;
  _ <- require "oldBalance" recs ;;
  _ <- require "amount" recs ;;
  Ok (events_from 0 recs (to_datetime (map start_ts recs))).

(** Line 122: [sort_values] looks its keys up first. *)
Definition sort_values (recs : list record) (l : list event) : outcome (list event) :=
  _ <- require "userId" recs ;;
  _ <- require "walletId" recs ;;
  Ok (sort_by by_user_wallet_ts_rid l).

(** Lines 123 to 127. *)
Definition next_old_column (recs : list record) (sorted : list event) : list float :=
  if has_col "userId" recs && has_col "walletId" recs
  then shift_next_old sorted
  else map (fun _ => nan) sorted.

Definition flow_break_of (e : event) (nxt : float) : bool :=
  notna (newBalance e) && notna nxt && gtb (abs (newBalance e - nxt)) 1e-6.

(** Lines 136 to 139; a label the Series lacks reads as missing. *)
Definition delta_anomaly_column (recs : list record) (sorted : list event) : event -> option bool :=
  if has_col "userId" recs
  then fun e => series_get (idx e) (groupby_apply z_anomalies sorted)
  else fun _ => Some false.

(** Lines 141 and 142: [fillna(False)]. *)
Definition fill_false (x : option bool) : bool :=
  match x with
  | Some b => b
  | None => false
  end.

Fixpoint rows_of (anomaly : event -> option bool) (sorted : list event) (nexts : list float)
  : list row :=
  match sorted with
  | [] => []
  | e :: rest =>
      let nxt := hd nan nexts in
      {| ev := e;
         next_old := nxt;
         flow_break := flow_break_of e nxt;
         delta_anomaly := fill_false (anomaly e) |} :: rows_of anomaly rest (tl nexts)
  end.

Definition row_user (r : row) : option text := userId (ev r).

(** Lines 144 to 159: one summary per [userId], rows without one dropped. *)
Definition per_user_of (recs : list record) (rows : list row) : list summary :=
  if has_col "userId" recs
  then map (fun k => summarize k (filter (fun r => key_is userId k (ev r)) rows))
           (group_keys userId (map ev rows))
  else [].

Definition analyze (recs : list record) : outcome analysis :=
  evs <- enrich recs ;;
  sorted <- sort_values recs evs ;;
  let rows := rows_of (delta_anomaly_column recs sorted) sorted
                      (next_old_column recs sorted) in
  Ok {| df := rows; per_user := per_user_of recs rows |}.

End Analyze.

Close Scope float_scope.

(** ** The report *)

(** What a sheet holds: a two-column glossary, the per-user summary, or rows
    of the enriched frame. *)
Inductive table : Type :=
| Glossary (heads : string * string) (lines : list (string * string))
| Summaries (lines : list summary)
| Rows (lines : list row).

(** The workbook [export_excel] writes: its sheets, by name, in the order they
    are written. *)
Definition workbook := list (string * table).

Definition readme : list (string * string) :=
  [ ("PerUserSummary", "Aggregated per-user stats (balances, overdrafts, mismatches etc.)");
    ("RedFlags", "All rows with any flagged issue (overdraft, mismatch, flow break, anomaly)");
    ("OverdraftEvents", "Only rows where newBalance < 0");
    ("MismatchEvents", "Only rows where delta != expected amount");
    ("FlowBreaks", "Only rows where balances didn’t carry over correctly");
    ("Anomalies", "Only rows where delta is an unusual outlier (>3σ)");
    ("SampleRaw", "First 200 parsed rows from raw logs");
    ("ColumnDefinitions", "Glossary of all column definitions") ]%string.

Definition col_defs : list (string * string) :=
  [ ("requestId", "Unique identifier of the log invocation block");
    ("file", "Source .gz log file");
    ("start_ts", "Raw timestamp string from the log");
    ("ts", "Parsed datetime version of start_ts");
    ("paymentBalance", "Balance at time of payment (from log)");
    ("oldBalance", "Balance before the transaction");
    ("newBalance", "Balance after the transaction");
    ("amount", "Transaction amount");
    ("action", "Action recorded in log");
    ("transactionAction", "Subtype of transaction action");
    ("walletId", "Wallet identifier for subscriber");
    ("userId", "Subscriber/user identifier");
    ("email", "Email of the subscriber (if logged)");
    ("id", "Business transaction ID (if logged)");
    ("delta", "newBalance - oldBalance");
    ("amount_sign", "+1 if amount acts like credit, -1 if debit");
    ("expected_delta", "Expected delta = amount * amount_sign");
    ("mismatch", "True if delta != expected_delta (inconsistency)");
    ("overdraft_before", "True if oldBalance < 0");
    ("overdraft_after", "True if newBalance < 0");
    ("overdraft_cross", "True if crossed from >=0 to <0");
    ("next_old", "Next event’s oldBalance (for flow check)");
    ("flow_break", "True if newBalance != next oldBalance");
    ("delta_anomaly", "True if delta is an outlier (>3σ for that user)") ]%string.

(** [df['overdraft_after'] | df['mismatch'] | df['flow_break'] |
    df['delta_anomaly']] *)
Definition any_flag (r : row) : bool :=
  overdraft_after (ev r) || mismatch (ev r) || flow_break r || delta_anomaly r.

(** [export_excel], as the sheets it writes.  [make_naive] re-reads the
    timestamps as UTC and drops the zone, which leaves a time given as an
    offset from the epoch as it is; the directory and the path of the file
    are outside the model. *)
Definition export_excel (a : analysis) : workbook :=
  let red_flags := filter any_flag (df a) in
  let overdrafts := filter (fun r => overdraft_after (ev r)) (df a) in
  let mismatches := filter (fun r => mismatch (ev r)) (df a) in
  let flow_breaks := filter flow_break (df a) in
  let anomalies := filter delta_anomaly (df a) in
  [ ("README", Glossary ("Item / Tab", "What it shows") readme);
    ("ColumnDefinitions", Glossary ("Column", "Definition") col_defs) ]%string
  ++ (if nonempty (per_user a)
      then [("PerUserSummary"%string, Summaries (per_user a))]
      else [])
  ++ [ ("RedFlags", Rows red_flags);
       ("OverdraftEvents", Rows overdrafts);
       ("MismatchEvents", Rows mismatches);
       ("FlowBreaks", Rows flow_breaks);
       ("Anomalies", Rows anomalies);
       ("SampleRaw", Rows (firstn 200 (df a))) ]%string.

(** ** The run *)

(** How [main] ends: by [SystemExit], by an exception nothing catches, or
    with the workbook written. *)
Inductive run_result : Type :=
| SystemExit (msg : string)
| Uncaught (e : exn)
| Written (w : workbook).

Section Main.

Variable to_datetime : list (option text) -> list (option Z).

(** [main] on what the file system holds: [None] when the input path does not
    exist, else the [.gz] files under it, in the order [sorted] lists them,
    each with its lines.  The messages are given without the path they end
    with. *)
Definition main (input : option (list (text * list text))) : run_result :=
  match input with
  | None => SystemExit "[ERROR] IN_DIR does not exist"
  | Some gz_files =>
      if nonempty gz_files
      then match analyze to_datetime (parse_logs gz_files) with
           | Ok a => Written (export_excel a)
           | Raise e => Uncaught e
           end
      else SystemExit "[ERROR] No .gz log files found under"
  end.

End Main.

(** * Specifications *)

(** ** What a pattern matches *)

Module ReSpec.

(** The texts a pattern matches in full. *)
Fixpoint denote (r : regex) (w : text) : Prop :=
  match r with
  | Chr p => exists c, w = [c] /\ p c = true
  | Lit l => w = l
  | LitI l => map lower w = map lower l
  | Cat r1 r2 => exists a b, w = a ++ b /\ denote r1 a /\ denote r2 b
  | Alt r1 r2 => denote r1 w \/ denote r2 w
  | Opt p => w = [] \/ exists c, w = [c] /\ p c = true
  | Star p => forallb p w = true
  | Plus p => w <> [] /\ forallb p w = true
  | Times n p => List.length w = n /\ forallb p w = true
  | Group r1 => denote r1 w
  end.

End ReSpec.

Import ReSpec.

(** The date that opens a marker line: four digits, two digits, two digits,
    hyphens between them, then the letter T. *)
Definition date_prefix (d : text) : Prop :=
  exists y m dd,
    d = y ++ T "-" ++ m ++ T "-" ++ dd ++ T "T"
    /\ (List.length y = 4 /\ forallb isdigit y = true)
    /\ (List.length m = 2 /\ forallb isdigit m = true)
    /\ (List.length dd = 2 /\ forallb isdigit dd = true).

(** The lines [marker_re word] recognises, spelled out. *)
Definition marker_line (word : string) (s : text) : Prop :=
  exists d mid ws rid rest,
    s = d ++ mid ++ (T word ++ T " RequestId:") ++ ws ++ rid ++ rest
    /\ date_prefix d
    /\ forallb dot mid = true
    /\ (ws <> [] /\ forallb isspace ws = true)
    /\ (List.length rid = 36 /\ forallb hexdash rid = true).

Definition recognised (r : regex) (s : text) : bool :=
  match match_ r s with
  | Some _ => true
  | None => false
  end.

(** In the specification's words: an identifier in the canonical 8-4-4-4-12
    grouping of hexadecimal digits. *)
Definition ishex (c : ascii) : bool :=
  let n := nat_of_ascii c in
  isdigit c || ((97 <=? n) && (n <=? 102)) || ((65 <=? n) && (n <=? 70)).

Fixpoint grouped (sizes : list nat) (u : text) : bool :=
  match sizes with
  | [] => match u with [] => true | _ :: _ => false end
  | [n] => (List.length u =? n) && forallb ishex u
  | n :: sizes' =>
      forallb ishex (firstn n u) && (List.length (firstn n u) =? n)
      && match skipn n u with
         | c :: u' => Ascii.eqb c "-"%char && grouped sizes' u'
         | [] => false
         end
  end.

Definition canonical_id (u : text) : bool := grouped [8; 4; 4; 4; 12] u.

(** In the specification's words, read at their weakest: somewhere the line
    has the literal [lit] followed by a canonical identifier. *)
Fixpoint has_canonical_marker (lit : text) (s : text) : bool :=
  match lit_rest Ascii.eqb lit s with
  | Some after => canonical_id (firstn 36 after)
  | None => false
  end
  || match s with
     | [] => false
     | _ :: s' => has_canonical_marker lit s'
     end.

(** ** Blocks *)

(** A block as the reconstruction should deliver it: the identifier and the
    timestamp taken from its start line, and its lines. *)
Record block : Type := {
  block_id : text;
  block_ts : text;
  block_lines : list text
}.

(** The line is an end marker that carries the identifier [rid]. *)
Definition ends_block (rid : text) (l : text) : bool :=
  match match_ end_re l with
  | Some (Some rid') => text_eqb rid' rid
  | _ => false
  end.

(** The lines of a block after its start line: up to the next start marker,
    which is left out, or to the end marker with the block's identifier,
    which is kept, or to the end of the source. *)
Fixpoint block_body (rid : text) (ls : list text) : list text :=
  match ls with
  | [] => []
  | l :: rest =>
      if recognised start_re l then []
      else if ends_block rid l then [l]
      else l :: block_body rid rest
  end.

(** One block for each start marker of the source, in the source's order. *)
Fixpoint blocks (ls : list text) : list block :=
  match ls with
  | [] => []
  | l :: rest =>
      match match_ start_re l with
      | Some (Some rid) =>
          {| block_id := rid;
             block_ts := capture_ts l;
             block_lines := l :: block_body rid rest |} :: blocks rest
      | _ => blocks rest
      end
  end.

Definition record_of_block (gz : text) (b : block) : record :=
  _extract_record (join [newline] (block_lines b)) (block_id b) gz
    (Some (block_ts b)) fields_patterns.

(** ** A sample frame *)

(** A stand-in for the library's parser in the examples: the fourteen digits
    of a [YYYY-MM-DDTHH:MM:SS] prefix read as one number, which orders such
    timestamps as time does; anything else is [NaT]. *)
Definition sample_stamp (t : text) : option Z :=
  let ds := filter isdigit (firstn 19 t) in
  if (List.length ds =? 14)%nat then digits_value 0 ds else None.

Definition sample_clock (cells : list (option text)) : list (option Z) :=
  map (fun c => match c with Some t => sample_stamp t | None => None end) cells.

Definition sample_record (rid stamp : string) (kvs : list (string * string)) : record :=
  {| requestId := T rid;
     file := T "logs/a.gz";
     start_ts := Some (T stamp);
     extracted := map (fun kv => (fst kv, T (snd kv))) kvs |}.

(** Twelve events of user [u1] on one wallet, eleven of them adding 1 and one
    adding 1000; then a block that logged no amount, and a user with two
    wallets whose later event is on the wallet that sorts first. *)
Definition sample_records : list record :=
  [ sample_record "r01" "2024-05-01T10:00:01Z"
      [("oldBalance", "0"); ("newBalance", "1"); ("amount", "1"); ("walletId", "w1"); ("userId", "u1")];
    sample_record "r02" "2024-05-01T10:00:02Z"
      [("oldBalance", "1"); ("newBalance", "2"); ("amount", "1"); ("walletId", "w1"); ("userId", "u1")];
    sample_record "r03" "2024-05-01T10:00:03Z"
      [("oldBalance", "2"); ("newBalance", "3"); ("amount", "1"); ("walletId", "w1"); ("userId", "u1")];
    sample_record "r04" "2024-05-01T10:00:04Z"
      [("oldBalance", "3"); ("newBalance", "4"); ("amount", "1"); ("walletId", "w1"); ("userId", "u1")];
    sample_record "r05" "2024-05-01T10:00:05Z"
      [("oldBalance", "4"); ("newBalance", "5"); ("amount", "1"); ("walletId", "w1"); ("userId", "u1")];
    sample_record "r06" "2024-05-01T10:00:06Z"
      [("oldBalance", "5"); ("newBalance", "6"); ("amount", "1"); ("walletId", "w1"); ("userId", "u1")];
    sample_record "r07" "2024-05-01T10:00:07Z"
      [("oldBalance", "6"); ("newBalance", "7"); ("amount", "1"); ("walletId", "w1"); ("userId", "u1")];
    sample_record "r08" "2024-05-01T10:00:08Z"
      [("oldBalance", "7"); ("newBalance", "8"); ("amount", "1"); ("walletId", "w1"); ("userId", "u1")];
    sample_record "r09" "2024-05-01T10:00:09Z"
      [("oldBalance", "8"); ("newBalance", "9"); ("amount", "1"); ("walletId", "w1"); ("userId", "u1")];
    sample_record "r10" "2024-05-01T10:00:10Z"
      [("oldBalance", "9"); ("newBalance", "10"); ("amount", "1"); ("walletId", "w1"); ("userId", "u1")];
    sample_record "r11" "2024-05-01T10:00:11Z"
      [("oldBalance", "10"); ("newBalance", "11"); ("amount", "1"); ("walletId", "w1"); ("userId", "u1")];
    sample_record "r12" "2024-05-01T10:00:12Z"
      [("oldBalance", "12"); ("newBalance", "1012"); ("amount", "1000"); ("walletId", "w1"); ("userId", "u1")];
    sample_record "r13" "2024-05-01T10:00:13Z"
      [("oldBalance", "10"); ("newBalance", "15"); ("walletId", "w9"); ("userId", "u3")];
    sample_record "r14" "2024-05-01T10:00:15Z"
      [("oldBalance", "10"); ("newBalance", "-5"); ("amount", "15"); ("walletId", "wA"); ("userId", "u2")];
    sample_record "r15" "2024-05-01T10:00:14Z"
      [("oldBalance", "0"); ("newBalance", "10"); ("amount", "10"); ("walletId", "wB"); ("userId", "u2")]
  ]%string.

Definition sample_analysis : analysis :=
  match analyze sample_clock sample_records with
  | Ok out => out
  | Raise _ => {| df := []; per_user := [] |}
  end.

Definition blank_row : row :=
  {| ev := event_of 0 (sample_record "" "" []) None;
     next_old := PrimFloat.nan;
     flow_break := false;
     delta_anomaly := false |}.

(** The row at position [i] of the sample's frame. *)
Definition sample_row (i : nat) : row := nth i (df sample_analysis) blank_row.

(** ** Flow continuity, in the specification's words *)

(** The rows of the group [(u, w)]. *)
Definition in_group (u w : text) (e : event) : bool :=
  key_is userId u e && key_is walletId w e.

(** The row that follows the row labelled [i] in an ordering. *)
Fixpoint next_after (i : nat) (l : list event) : option event :=
  match l with
  | [] => None
  | e :: rest => if Nat.eqb (idx e) i then hd_error rest else next_after i rest
  end.

(** Group the rows by [(userId, walletId)], order the group of [e] by
    [(ts, requestId)] with unknown timestamps last, take the row after [e]:
    a break when this [newBalance] and that [oldBalance] are known and differ
    by more than 1e-6.  No break without a [userId] or a [walletId]. *)
Definition flow_break_spec (evs : list event) (e : event) : bool :=
  match userId e, walletId e with
  | Some u, Some w =>
      match next_after (idx e) (sort_by by_ts_rid (filter (in_group u w) evs)) with
      | Some nxt =>
          notna (newBalance e) && notna (oldBalance nxt)
          && gtb (PrimFloat.abs (PrimFloat.sub (newBalance e) (oldBalance nxt))) 1e-6
      | None => false
      end
  | _, _ => false
  end.

(** ** The last balance, in the specification's words *)

(** The last known [newBalance] of the user's rows in chronological order:
    by [(ts, requestId)], unknown timestamps last. *)
Definition last_balance_chrono (evs : list event) (u : text) : float :=
  last_known (map newBalance (sort_by by_ts_rid (filter (key_is userId u) evs))).

(** The same in the order of the frame within a user: by
    [(walletId, ts, requestId)], unknown values last. *)
Definition last_balance_by_wallet (evs : list event) (u : text) : float :=
  last_known (map newBalance (sort_by by_wallet_ts_rid (filter (key_is userId u) evs))).

(** The summary at position [i] of the sample's [per_user]. *)
Definition sample_summary (i : nat) : summary :=
  nth i (per_user sample_analysis) (summarize [] []).

(** One user on two wallets: the event on wallet [wA] is the later one. *)
Definition C7_records : list record :=
  [ sample_record "r14" "2024-05-01T10:00:15Z"
      [("oldBalance", "10"); ("newBalance", "-5"); ("amount", "15"); ("walletId", "wA"); ("userId", "u2")];
    sample_record "r15" "2024-05-01T10:00:14Z"
      [("oldBalance", "0"); ("newBalance", "10"); ("amount", "10"); ("walletId", "wB"); ("userId", "u2")]
  ]%string.

(** ** Auxiliary definitions and the inputs of the examples *)

Unset Implicit Arguments.

(** A start line whose identifier has no grouping. *)
Definition C8_line : text :=
  T "2024-05-01T10:00:00.000Z START RequestId: 0123456789abcdef0123456789abcdef0123".

(** The loop variables while a block is open. *)
Definition open_state (rid : text) (buf : list text) (t : text) (recs : list record) : pstate :=
  {| current_id := Some rid; buffer_lines := buf; cur_start_ts := Some t; records := recs |}.

(** A start line with a Z after its timestamp. *)
Definition C9_line : text :=
  T "2024-05-01T10:00:00.000Z START RequestId: 01234567-89ab-cdef-0123-456789abcdef".

(** A log whose only block logs no [oldBalance]. *)
Definition C2_log : list text :=
  [ T "2024-05-01T10:00:00.000Z START RequestId: 01234567-89ab-cdef-0123-456789abcdef";
    T "2024-05-01T10:00:00.100Z INFO userId: 'u1', newBalance: 15, amount: 5";
    [dquote] ++ T "walletId" ++ [dquote] ++ T ":" ++ [dquote] ++ T "w1" ++ [dquote];
    T "2024-05-01T10:00:00.200Z END RequestId: 01234567-89ab-cdef-0123-456789abcdef" ].

(** A log whose only block logs no [userId]. *)
Definition C10_log : list text :=
  [ T "2024-05-01T10:00:00.000Z START RequestId: 01234567-89ab-cdef-0123-456789abcdef";
    T "2024-05-01T10:00:00.100Z INFO oldBalance: 10, newBalance: 15, amount: 5";
    [dquote] ++ T "walletId" ++ [dquote] ++ T ":" ++ [dquote] ++ T "w1" ++ [dquote];
    T "2024-05-01T10:00:00.200Z END RequestId: 01234567-89ab-cdef-0123-456789abcdef" ].

(** The values that are numbers: zeros and finite values. *)
Definition SFfinite (x : spec_float) : Prop :=
  match x with
  | S754_zero _ | S754_finite _ _ _ => True
  | _ => False
  end.

(** What the sort needs of a comparison: swapping the arguments flips the
    outcome, equal-ranking values compare alike with any other, and "before"
    is transitive. *)
Record lawful {A : Type} (cmp : A -> A -> comparison) : Prop := {
  law_flip : forall a b, cmp b a = CompOpp (cmp a b);
  law_eq_l : forall a b c, cmp a b = Eq -> cmp a c = cmp b c;
  law_lt : forall a b c, cmp a b = Lt -> cmp b c = Lt -> cmp a c = Lt
}.

Arguments law_flip {A cmp} _ _ _.
Arguments law_eq_l {A cmp} _ _ _ _ _.
Arguments law_lt {A cmp} _ _ _ _ _ _.

(** The value [z_anomalies] gives a row of the group [sub]. *)
Definition z_flag (sub : list event) (e : event) : bool :=
  let vals := filter notna (map delta sub) in
  if (List.length vals <? 5)%nat then false
  else if PrimFloat.eqb (std vals) 0 then false
       else gtb (PrimFloat.abs (PrimFloat.sub (delta e) (mean vals)))
                (PrimFloat.mul 3 (std vals)).

(** [a] is not after [b]. *)
Definition le_by {A : Type} (cmp : A -> A -> comparison) (a b : A) : Prop :=
  le_of cmp a b = true.

(** The longest prefix of [s] in the class [p], and what follows it. *)
Fixpoint take_while (p : cls) (s : text) : text :=
  match s with
  | c :: s' => if p c then c :: take_while p s' else []
  | [] => []
  end.

Fixpoint drop_while (p : cls) (s : text) : text :=
  match s with
  | c :: s' => if p c then drop_while p s' else s
  | [] => []
  end.

(** The text begins with a character of the class [p]. *)
Definition starts_with (p : cls) (s : text) : bool :=
  match s with
  | c :: _ => p c
  | [] => false
  end.

(** The names of the numeric patterns. *)
Definition numeric_fields : list string :=
  ["paymentBalance"; "oldBalance"; "newBalance"; "amount"]%string.

(** The record holds the [userId] [u]. *)
Definition rec_user_is (u : text) (rec : record) : bool :=
  match rec_get "userId" rec with
  | Some u' => text_eqb u' u
  | None => false
  end.

Definition rec_has_user (rec : record) : bool :=
  match rec_get "userId" rec with
  | Some _ => true
  | None => false
  end.

(** The sheet of a workbook with a given name, and the rows it holds. *)
Fixpoint sheet (name : string) (w : workbook) : option table :=
  match w with
  | [] => None
  | (n, t) :: w' => if String.eqb name n then Some t else sheet name w'
  end.

Definition sheet_rows (name : string) (w : workbook) : list row :=
  match sheet name w with
  | Some (Rows l) => l
  | _ => []
  end.

(** The five columns [analyze] reads without a guard. *)
Definition required_columns : list string :=
  ["newBalance"; "oldBalance"; "amount"; "userId"; "walletId"]%string.

(** The sheets of a report, in the order they are written. *)
Definition sheet_names : list string :=
  ["README"; "ColumnDefinitions"; "PerUserSummary"; "RedFlags"; "OverdraftEvents";
   "MismatchEvents"; "FlowBreaks"; "Anomalies"; "SampleRaw"]%string.

(** A file with two lines and no marker. *)
Definition unmarked_log : list (text * list text) :=
  [(T "logs/a.gz", [T "2024-05-01T10:00:00.100Z INFO oldBalance: 10, newBalance: 15";
                    T "2024-05-01T10:00:00.200Z INFO amount: 5 userId: 'u1'"])].

(** The place of a number in the order of the floats: its class (the
    infinities outermost, the zeros in the middle), then its exponent and
    its mantissa, both negated for a negative number. *)
Definition order_key (x : spec_float) : Z * Z * Z :=
  match x with
  | S754_zero _ => (0, 0, 0)
  | S754_infinity s => (if s then -2 else 2, 0, 0)
  | S754_nan => (0, 0, 0)
  | S754_finite s m e => if s then (-1, - e, Zneg m) else (1, e, Zpos m)
  end%Z.

Definition key_lt (a b : Z * Z * Z) : Prop :=
  let '(r1, e1, m1) := a in
  let '(r2, e2, m2) := b in
  (r1 < r2 \/ (r1 = r2 /\ (e1 < e2 \/ (e1 = e2 /\ m1 < m2))))%Z.

Definition key_le (a b : Z * Z * Z) : Prop := key_lt a b \/ a = b.

(** The known [newBalance] values of a user's rows, in the order of the
    rows. *)
Definition known_balances (u : text) (rows : list row) : list float :=
  filter notna (map (fun r => newBalance (ev r))
                    (filter (fun r => key_is userId u (ev r)) rows)).

(** * Proofs *)

(** ** The matcher against the meaning of the patterns *)


Lemma lit_rest_eqb_spec (l s s' : text) :
  lit_rest Ascii.eqb l s = Some s' <-> s = l ++ s'.
Proof.
  revert s; induction l as [|a l IH]; intros s; simpl.
  - split; [intros [= ->]; reflexivity | intros ->; reflexivity].
  - destruct s as [|c s]; [split; [discriminate | intros [=]]|].
    destruct (Ascii.eqb a c) eqn:E.
    + apply Ascii.eqb_eq in E; subst c. rewrite IH.
      split; [intros ->; reflexivity | intros [= ->]; reflexivity].
    + split; [discriminate|]. intros [= -> _].
      rewrite Ascii.eqb_refl in E; discriminate.
Qed.

Lemma lit_rest_lower_spec (l s s' : text) :
  lit_rest (fun a c => Ascii.eqb (lower a) (lower c)) l s = Some s'
  <-> exists w, s = w ++ s' /\ map lower w = map lower l.
Proof.
  revert s; induction l as [|a l IH]; intros s; simpl.
  - split.
    + intros [= ->]. exists []; auto.
    + intros (w & -> & Hw). destruct w; [reflexivity | discriminate].
  - destruct s as [|c s].
    + split; [discriminate|]. intros (w & Hs & Hw).
      destruct w; [discriminate | discriminate].
    + destruct (Ascii.eqb (lower a) (lower c)) eqn:E.
      * apply Ascii.eqb_eq in E. rewrite IH. split.
        -- intros (w & -> & Hw). exists (c :: w); simpl. rewrite Hw, E. auto.
        -- intros (w & Hs & Hw). destruct w as [|c' w]; [discriminate|].
           simpl in Hs, Hw. injection Hs as <- ->. injection Hw as _ Hw.
           exists w; auto.
      * split; [discriminate|]. intros (w & Hs & Hw).
        destruct w as [|c' w]; [discriminate|]. simpl in Hs, Hw.
        injection Hs as <- _. injection Hw as Hc _.
        rewrite Hc, Ascii.eqb_refl in E. discriminate.
Qed.

Lemma times_rest_spec (n : nat) (p : cls) (s s' : text) :
  times_rest n p s = Some s'
  <-> exists w, s = w ++ s' /\ List.length w = n /\ forallb p w = true.
Proof.
  revert s; induction n as [|n IH]; intros s; simpl.
  - split.
    + intros [= ->]. exists []; auto.
    + intros (w & -> & Hl & _). destruct w; [reflexivity | discriminate].
  - destruct s as [|c s].
    + split; [discriminate|]. intros (w & Hs & Hl & _).
      destruct w; discriminate.
    + destruct (p c) eqn:E.
      * rewrite IH. split.
        -- intros (w & -> & Hl & Hp). exists (c :: w); simpl.
           rewrite E, Hp, Hl. auto.
        -- intros (w & Hs & Hl & Hp). destruct w as [|c' w]; [discriminate|].
           simpl in *. injection Hs as <- ->. injection Hl as Hl.
           rewrite E in Hp. exists w; auto.
      * split; [discriminate|]. intros (w & Hs & Hl & Hp).
        destruct w as [|c' w]; [discriminate|]. simpl in *.
        injection Hs as <- _. rewrite E in Hp. discriminate.
Qed.

Lemma star_rests_spec (p : cls) (s s' : text) :
  In s' (star_rests p s) <-> exists w, s = w ++ s' /\ forallb p w = true.
Proof.
  induction s as [|c s IH]; simpl.
  - split.
    + intros [<-|[]]. exists []; auto.
    + intros (w & Hs & _). destruct w; [|discriminate]. simpl in Hs. auto.
  - destruct (p c) eqn:E.
    + rewrite in_app_iff, IH. simpl. split.
      * intros [(w & -> & Hp) | [<-|[]]].
        -- exists (c :: w); simpl. rewrite E, Hp. auto.
        -- exists []; auto.
      * intros (w & Hs & Hp). destruct w as [|c' w].
        -- right; left. simpl in Hs. auto.
        -- simpl in *. injection Hs as <- ->. rewrite E in Hp.
           left. exists w; auto.
    + simpl. split.
      * intros [<-|[]]. exists []; auto.
      * intros (w & Hs & Hp). destruct w as [|c' w].
        -- left. simpl in Hs. auto.
        -- simpl in *. injection Hs as <- _. rewrite E in Hp. discriminate.
Qed.

Lemma plus_rests_spec (p : cls) (s s' : text) :
  In s' (plus_rests p s)
  <-> exists w, s = w ++ s' /\ w <> [] /\ forallb p w = true.
Proof.
  unfold plus_rests. destruct s as [|c s].
  - split; [intros []|]. intros (w & Hs & Hne & _).
    destruct w; [contradiction | discriminate].
  - destruct (p c) eqn:E.
    + rewrite star_rests_spec. split.
      * intros (w & -> & Hp). exists (c :: w); simpl. rewrite E, Hp.
        repeat split; auto. discriminate.
      * intros (w & Hs & Hne & Hp). destruct w as [|c' w]; [contradiction|].
        simpl in *. injection Hs as <- ->. rewrite E in Hp. exists w; auto.
    + split; [intros []|]. intros (w & Hs & Hne & Hp).
      destruct w as [|c' w]; [contradiction|]. simpl in *.
      injection Hs as <- _. rewrite E in Hp. discriminate.
Qed.

(** The matcher is sound and complete for the meaning of a pattern: it can
    leave [s'] of [s] exactly when the pattern matches what precedes [s']. *)
Theorem run_denote (r : regex) (s s' : text) (g : capture) :
  (exists g', In (s', g') (run r s g))
  <-> exists w, s = w ++ s' /\ denote r w.
Proof.
  revert s s' g; induction r as
    [p | l | l | r1 IH1 r2 IH2 | r1 IH1 r2 IH2 | p | p | p | n p | r1 IH1];
    intros s s' g; simpl.
  - (* Chr *)
    destruct s as [|c s].
    + split; [intros (g' & [])|]. intros (w & Hs & c & -> & _). discriminate.
    + destruct (p c) eqn:E.
      * split.
        -- intros (g' & [[= <- <-]|[]]). exists [c]; split; eauto.
        -- intros (w & Hs & c' & -> & Hp). injection Hs as <- ->.
           exists g. left; reflexivity.
      * split; [intros (g' & [])|]. intros (w & Hs & c' & -> & Hp).
        injection Hs as <- _. rewrite E in Hp. discriminate.
  - (* Lit *)
    destruct (lit_rest Ascii.eqb l s) as [s0|] eqn:E.
    + apply lit_rest_eqb_spec in E. split.
      * intros (g' & [[= <- <-]|[]]). exists l; auto.
      * intros (w & Hs & ->). rewrite E in Hs. apply app_inv_head in Hs.
        subst s0. exists g. left; reflexivity.
    + split; [intros (g' & [])|]. intros (w & Hs & ->).
      apply lit_rest_eqb_spec in Hs. rewrite Hs in E. discriminate.
  - (* LitI *)
    destruct (lit_rest _ l s) as [s0|] eqn:E.
    + split.
      * intros (g' & [[= <- <-]|[]]). apply lit_rest_lower_spec in E. exact E.
      * intros Hw. apply lit_rest_lower_spec in Hw. rewrite Hw in E.
        injection E as <-. exists g. left; reflexivity.
    + split; [intros (g' & [])|]. intros Hw.
      apply lit_rest_lower_spec in Hw. rewrite Hw in E. discriminate.
  - (* Cat *)
    split.
    + intros (g' & Hin). apply in_flat_map in Hin.
      destruct Hin as ([s1 g1] & H1 & H2). simpl in H2.
      destruct (proj1 (IH1 s s1 g) (ex_intro _ g1 H1)) as (a & -> & Ha).
      destruct (proj1 (IH2 s1 s' g1) (ex_intro _ g' H2)) as (b & -> & Hb).
      exists (a ++ b). rewrite <- app_assoc. split; [reflexivity|].
      exists a, b; auto.
    + intros (w & -> & a & b & -> & Ha & Hb).
      destruct (proj2 (IH1 ((a ++ b) ++ s') (b ++ s') g)) as (g1 & H1).
      { exists a. rewrite <- app_assoc. auto. }
      destruct (proj2 (IH2 (b ++ s') s' g1)) as (g2 & H2).
      { exists b; auto. }
      exists g2. apply in_flat_map. exists (b ++ s', g1); auto.
  - (* Alt *)
    split.
    + intros (g' & Hin). apply in_app_or in Hin. destruct Hin as [H|H].
      * destruct (proj1 (IH1 s s' g) (ex_intro _ g' H)) as (w & -> & Hw).
        exists w; auto.
      * destruct (proj1 (IH2 s s' g) (ex_intro _ g' H)) as (w & -> & Hw).
        exists w; auto.
    + intros (w & -> & [H|H]).
      * destruct (proj2 (IH1 (w ++ s') s' g)) as (g' & H'); [eauto|].
        exists g'. apply in_or_app; auto.
      * destruct (proj2 (IH2 (w ++ s') s' g)) as (g' & H'); [eauto|].
        exists g'. apply in_or_app; auto.
  - (* Opt *)
    split.
    + intros (g' & Hin). destruct s as [|c s].
      * destruct Hin as [[= <- <-]|[]]. exists []; auto.
      * destruct (p c) eqn:E.
        -- destruct Hin as [[= <- <-]|[[= <- <-]|[]]].
           ++ exists [c]; split; [reflexivity|]. right; eauto.
           ++ exists []; auto.
        -- destruct Hin as [[= <- <-]|[]]. exists []; auto.
    + intros (w & -> & [->|(c & -> & Hp)]); simpl.
      * exists g. destruct s' as [|c s']; [left; reflexivity|].
        destruct (p c); simpl; auto.
      * rewrite Hp. exists g. left; reflexivity.
  - (* Star *)
    rewrite <- star_rests_spec. split.
    + intros (g' & Hin). apply in_map_iff in Hin.
      destruct Hin as (x & [= <- <-] & Hx). exact Hx.
    + intros Hin. exists g. apply in_map_iff. exists s'; auto.
  - (* Plus *)
    split.
    + intros (g' & Hin). apply in_map_iff in Hin.
      destruct Hin as (x & [= <- <-] & Hx). apply plus_rests_spec in Hx.
      destruct Hx as (w & -> & Hne & Hp). exists w; auto.
    + intros (w & -> & Hne & Hp). exists g. apply in_map_iff.
      exists s'; split; [reflexivity|]. apply plus_rests_spec. exists w; auto.
  - (* Times *)
    destruct (times_rest n p s) as [s0|] eqn:E.
    + split.
      * intros (g' & [[= <- <-]|[]]). apply times_rest_spec in E.
        destruct E as (w & -> & Hl & Hp). exists w; auto.
      * intros (w & Hs & Hl & Hp).
        assert (E' : times_rest n p s = Some s') by (apply times_rest_spec; eauto).
        rewrite E' in E. injection E as <-. exists g. left; reflexivity.
    + split; [intros (g' & [])|]. intros (w & Hs & Hl & Hp).
      assert (E' : times_rest n p s = Some s') by (apply times_rest_spec; eauto).
      rewrite E' in E. discriminate.
  - (* Group *)
    split.
    + intros (g' & Hin). apply in_map_iff in Hin.
      destruct Hin as ([s1 g1] & [= <- <-] & H1). apply (IH1 s s1 g). eauto.
    + intros Hw. apply (IH1 s s' g) in Hw. destruct Hw as (g1 & H1).
      eexists. apply in_map_iff. exists (s', g1). split; [reflexivity | exact H1].
Qed.

(** [match] succeeds exactly on the texts with a prefix the pattern matches. *)
Lemma recognised_denote (r : regex) (s : text) :
  recognised r s = true <-> exists w rest, s = w ++ rest /\ denote r w.
Proof.
  unfold recognised, match_. split.
  - destruct (run r s None) as [|[s' g'] l] eqn:E; [discriminate|]. intros _.
    destruct (proj1 (run_denote r s s' None)) as (w & Hs & Hw).
    { exists g'. rewrite E. left; reflexivity. }
    exists w, s'; auto.
  - intros (w & rest & Hs & Hw).
    destruct (proj2 (run_denote r s rest None)) as (g' & Hin); [eauto|].
    destruct (run r s None) as [|[s' g''] l]; [destruct Hin | reflexivity].
Qed.

(** ** Marker lines *)

Lemma marker_re_denote (word : string) (w : text) :
  denote (marker_re word) w
  <-> exists d mid ws rid,
        w = d ++ mid ++ (T word ++ T " RequestId:") ++ ws ++ rid
        /\ date_prefix d
        /\ forallb dot mid = true
        /\ (ws <> [] /\ forallb isspace ws = true)
        /\ (List.length rid = 36 /\ forallb hexdash rid = true).
Proof.
  unfold marker_re, date_prefix; cbn [Re.seq denote]. split.
  - intros (y & b1 & -> & Hy & h1 & b2 & -> & -> & m & b3 & -> & Hm
            & h2 & b4 & -> & -> & dd & b5 & -> & Hdd & t & b6 & -> & ->
            & mid & b7 & -> & Hmid & lit & b8 & -> & -> & ws & rid & -> & Hws & Hrid).
    exists (y ++ T "-" ++ m ++ T "-" ++ dd ++ T "T"), mid, ws, rid.
    repeat split; try tauto.
    + repeat rewrite <- app_assoc. reflexivity.
    + exists y, m, dd. tauto.
  - intros (d & mid & ws & rid & -> & (y & m & dd & -> & Hy & Hm & Hdd) & Hmid & Hws & Hrid).
    exists y, (T "-" ++ m ++ T "-" ++ dd ++ T "T" ++ mid
               ++ (T word ++ T " RequestId:") ++ ws ++ rid).
    split; [repeat rewrite <- app_assoc; reflexivity|]. split; [exact Hy|].
    exists (T "-"), (m ++ T "-" ++ dd ++ T "T" ++ mid
                     ++ (T word ++ T " RequestId:") ++ ws ++ rid).
    split; [reflexivity|]. split; [reflexivity|].
    exists m, (T "-" ++ dd ++ T "T" ++ mid ++ (T word ++ T " RequestId:") ++ ws ++ rid).
    split; [reflexivity|]. split; [exact Hm|].
    exists (T "-"), (dd ++ T "T" ++ mid ++ (T word ++ T " RequestId:") ++ ws ++ rid).
    split; [reflexivity|]. split; [reflexivity|].
    exists dd, (T "T" ++ mid ++ (T word ++ T " RequestId:") ++ ws ++ rid).
    split; [reflexivity|]. split; [exact Hdd|].
    exists (T "T"), (mid ++ (T word ++ T " RequestId:") ++ ws ++ rid).
    split; [reflexivity|]. split; [reflexivity|].
    exists mid, ((T word ++ T " RequestId:") ++ ws ++ rid).
    split; [reflexivity|]. split; [exact Hmid|].
    exists (T word ++ T " RequestId:"), (ws ++ rid).
    split; [reflexivity|]. split; [reflexivity|].
    exists ws, rid. tauto.
Qed.

Lemma marker_recognised (word : string) (s : text) :
  recognised (marker_re word) s = true <-> marker_line word s.
Proof.
  rewrite recognised_denote. unfold marker_line. split.
  - intros (w & rest & -> & Hw). apply marker_re_denote in Hw.
    destruct Hw as (d & mid & ws & rid & -> & Hd & Hmid & Hws & Hrid).
    exists d, mid, ws, rid, rest. repeat rewrite <- app_assoc. tauto.
  - intros (d & mid & ws & rid & rest & -> & Hd & Hmid & Hws & Hrid).
    exists (d ++ mid ++ (T word ++ T " RequestId:") ++ ws ++ rid), rest.
    split; [repeat rewrite <- app_assoc; reflexivity|].
    apply marker_re_denote. exists d, mid, ws, rid. tauto.
Qed.

(** A marker's identifier is a text of 36 characters. *)
Lemma run_cat_last (r1 r2 : regex) (s : text) (g : capture) (x : text * capture) :
  In x (run (Cat r1 r2) s g) -> exists s1 g1, In x (run r2 s1 g1).
Proof.
  simpl. intros H. apply in_flat_map in H. destruct H as ([s1 g1] & _ & H).
  exists s1, g1. exact H.
Qed.

Lemma firstn_app_length_diff (w s0 : text) :
  firstn (List.length (w ++ s0) - List.length s0) (w ++ s0) = w.
Proof.
  rewrite length_app, Nat.add_sub, firstn_app, Nat.sub_diag, firstn_all.
  simpl. apply app_nil_r.
Qed.

Lemma marker_capture (word : string) (s : text) (g : capture) :
  match_ (marker_re word) s = Some g ->
  exists rid, g = Some rid /\ List.length rid = 36 /\ forallb hexdash rid = true.
Proof.
  unfold match_. destruct (run (marker_re word) s None) as [|[s' g'] l] eqn:E;
    [discriminate|]. intros [= <-].
  assert (H : In (s', g') (run (marker_re word) s None)) by (rewrite E; left; reflexivity).
  clear E. unfold marker_re in H. cbn [Re.seq] in H.
  repeat (apply run_cat_last in H; destruct H as (? & ? & H)).
  cbn [run] in H. apply in_map_iff in H. destruct H as ([s0 g0] & [= <- <-] & H).
  match type of H with context [times_rest ?n ?p ?t] =>
    destruct (times_rest n p t) as [s1|] eqn:Et end; [|destruct H].
  destruct H as [[= <- <-]|[]]. apply times_rest_spec in Et.
  destruct Et as (w & -> & Hl & Hp). exists w. cbn [fst].
  rewrite firstn_app_length_diff. auto.
Qed.


(** C8, as the claim states it, fails: the line above is recognised as a
    start marker, and nowhere in it is the literal followed by an identifier
    in the 8-4-4-4-12 grouping. *)
Lemma C8_counterexample :
  recognised start_re C8_line = true
  /\ has_canonical_marker (T "START RequestId: ") C8_line = false.
Proof. split; vm_compute; reflexivity. Qed.

(** C8, amended: a line is recognised as a start (resp. end) marker exactly
    when it begins with a date dddd-dd-ddT, followed by any characters but a
    newline, the literal [START RequestId:] (resp. [END RequestId:]), one or
    more whitespace characters and 36 characters that are each a digit, a
    letter a to f or a hyphen, whatever their grouping. *)
Theorem marker_lines_recognised (s : text) :
  (recognised start_re s = true <-> marker_line "START" s)
  /\ (recognised end_re s = true <-> marker_line "END" s).
Proof. split; apply marker_recognised. Qed.

(** ** Block reconstruction *)

Lemma recognised_match (r : regex) (s : text) :
  recognised r s = true <-> exists g, match_ r s = Some g.
Proof.
  unfold recognised. destruct (match_ r s) as [g|].
  - split; eauto.
  - split; [discriminate | intros (g & [=])].
Qed.

Lemma start_line_id (s : text) :
  recognised start_re s = true ->
  exists c rid, match_ start_re s = Some (Some (c :: rid)).
Proof.
  intros H. apply recognised_match in H. destruct H as (g & Hg).
  destruct (marker_capture _ _ _ Hg) as (rid & -> & Hl & _).
  destruct rid as [|c rid]; [discriminate|]. eauto.
Qed.


Lemma step_start (gz : text) (st : pstate) (raw : text) (rid : text) :
  match_ start_re (strip raw) = Some (Some rid) ->
  step gz st raw = open_state rid [strip raw] (capture_ts (strip raw)) (flush_open gz st).
Proof. intros H. unfold step. rewrite H. reflexivity. Qed.

Lemma flush_open_open (gz rid : text) (c : ascii) (rid' : text) (l : text) (buf : list text)
    (t : text) (recs : list record) :
  rid = c :: rid' ->
  flush_open gz (open_state rid (l :: buf) t recs)
  = recs ++ [_extract_record (join [newline] (l :: buf)) rid gz (Some t) fields_patterns].
Proof. intros ->. reflexivity. Qed.

Lemma step_open_other (gz rid : text) (c : ascii) (rid' : text) (buf : list text) (t : text)
    (recs : list record) (raw : text) :
  rid = c :: rid' ->
  recognised start_re (strip raw) = false ->
  ends_block rid (strip raw) = false ->
  step gz (open_state rid buf t recs) raw = open_state rid (buf ++ [strip raw]) t recs.
Proof.
  intros -> Hs He. unfold step, recognised, ends_block in *.
  destruct (match_ start_re (strip raw)); [discriminate|].
  destruct (match_ end_re (strip raw)) as [[a|]|]; simpl; try reflexivity.
  rewrite He. reflexivity.
Qed.

Lemma step_open_end (gz rid : text) (c : ascii) (rid' : text) (buf : list text) (t : text)
    (recs : list record) (raw : text) :
  rid = c :: rid' ->
  recognised start_re (strip raw) = false ->
  ends_block rid (strip raw) = true ->
  step gz (open_state rid buf t recs) raw
  = init_state (recs ++ [_extract_record (join [newline] (buf ++ [strip raw])) rid gz
                           (Some t) fields_patterns]).
Proof.
  intros -> Hs He. unfold step, recognised, ends_block in *.
  destruct (match_ start_re (strip raw)); [discriminate|].
  destruct (match_ end_re (strip raw)) as [[a|]|]; try discriminate.
  simpl. rewrite He. reflexivity.
Qed.

Lemma step_idle_other (gz : text) (recs : list record) (raw : text) :
  recognised start_re (strip raw) = false ->
  step gz (init_state recs) raw = init_state recs.
Proof.
  intros Hs. unfold step, recognised in *.
  destruct (match_ start_re (strip raw)); [discriminate|].
  destruct (match_ end_re (strip raw)); reflexivity.
Qed.

Lemma blocks_skip (l : text) (rest : list text) :
  recognised start_re l = false -> blocks (l :: rest) = blocks rest.
Proof.
  unfold recognised. simpl. destruct (match_ start_re l); [discriminate | reflexivity].
Qed.

(** The loop from an open block, and from no block. *)
Lemma run_from_state (gz : text) (lines : list text) :
  (forall rid c rid' l buf t recs,
      rid = c :: rid' ->
      flush_open gz (fold_left (step gz) lines (open_state rid (l :: buf) t recs))
      = recs
        ++ [_extract_record
              (join [newline] ((l :: buf) ++ block_body rid (map strip lines)))
              rid gz (Some t) fields_patterns]
        ++ map (record_of_block gz) (blocks (map strip lines)))
  /\ (forall recs,
         flush_open gz (fold_left (step gz) lines (init_state recs))
         = recs ++ map (record_of_block gz) (blocks (map strip lines))).
Proof.
  induction lines as [|raw lines [IHopen IHidle]].
  - split.
    + intros rid c rid' l buf t recs Hrid. simpl fold_left. simpl map.
      cbn [block_body blocks map]. rewrite app_nil_r, app_nil_r.
      apply (flush_open_open gz _ _ _ l buf t recs Hrid).
    + intros recs. simpl. rewrite app_nil_r. reflexivity.
  - split.
    + intros rid c rid' l buf t recs Hrid. cbn [fold_left map].
      destruct (recognised start_re (strip raw)) eqn:Hs.
      * destruct (start_line_id _ Hs) as (c2 & rid2 & Hm).
        rewrite (step_start gz _ raw _ Hm).
        rewrite (flush_open_open gz _ _ _ l buf t recs Hrid).
        rewrite (IHopen (c2 :: rid2) c2 rid2 (strip raw) [] _ _ eq_refl).
        cbn [block_body blocks]. rewrite Hs, Hm, app_nil_r.
        unfold record_of_block at 2. cbn [block_id block_ts block_lines map].
        rewrite <- app_assoc. reflexivity.
      * rewrite (blocks_skip _ _ Hs). cbn [block_body]. rewrite Hs.
        destruct (ends_block rid (strip raw)) eqn:He.
        -- rewrite (step_open_end gz _ _ _ (l :: buf) t recs raw Hrid Hs He).
           rewrite IHidle. rewrite <- app_assoc. reflexivity.
        -- rewrite (step_open_other gz _ _ _ (l :: buf) t recs raw Hrid Hs He).
           change ((l :: buf) ++ [strip raw]) with (l :: (buf ++ [strip raw])).
           rewrite (IHopen rid c rid' l (buf ++ [strip raw]) t recs Hrid).
           change (l :: (buf ++ [strip raw])) with ((l :: buf) ++ [strip raw]).
           rewrite <- app_assoc. reflexivity.
    + intros recs. cbn [fold_left map].
      destruct (recognised start_re (strip raw)) eqn:Hs.
      * destruct (start_line_id _ Hs) as (c2 & rid2 & Hm).
        rewrite (step_start gz _ raw _ Hm).
        change (flush_open gz (init_state recs)) with recs.
        rewrite (IHopen (c2 :: rid2) c2 rid2 (strip raw) [] _ _ eq_refl).
        cbn [blocks]. rewrite Hm. reflexivity.
      * rewrite (step_idle_other gz recs raw Hs), (blocks_skip _ _ Hs).
        apply IHidle.
Qed.

Lemma blocks_count (ls : list text) :
  List.length (blocks ls) = List.length (filter (recognised start_re) ls).
Proof.
  induction ls as [|l ls IH]; [reflexivity|]. cbn [blocks filter].
  destruct (recognised start_re l) eqn:Hs.
  - destruct (start_line_id _ Hs) as (c & rid & ->). simpl. rewrite IH. reflexivity.
  - unfold recognised in Hs. destruct (match_ start_re l); [discriminate | exact IH].
Qed.

(** C1: on every source, the records a file adds are those of its blocks, one
    for each start marker and in their order: each carries the identifier and
    the timestamp of its start line and is extracted from the lines up to the
    end marker of the same identifier (included), up to the next start marker
    (excluded), or up to the end of the source; lines outside a block add no
    record. *)
Theorem parse_file_blocks (gz : text) (lines : list text) (recs : list record) :
  parse_file gz lines recs
  = recs ++ map (record_of_block gz) (blocks (map strip lines))
  /\ List.length (blocks (map strip lines))
     = List.length (filter (recognised start_re) (map strip lines))
  /\ Forall (fun b =>
               match_ start_re (hd [] (block_lines b)) = Some (Some (block_id b))
               /\ block_ts b = capture_ts (hd [] (block_lines b)))
            (blocks (map strip lines)).
Proof.
  split; [|split].
  - apply (proj2 (run_from_state gz lines)).
  - apply blocks_count.
  - induction (map strip lines) as [|l ls IH]; [constructor|]. cbn [blocks].
    destruct (match_ start_re l) as [[rid|]|] eqn:Hm; try exact IH.
    constructor; [|exact IH]. simpl. auto.
Qed.

Lemma parse_logs_from (gz_files : list (text * list text)) (recs : list record) :
  fold_left (fun recs f => parse_file (fst f) (snd f) recs) gz_files recs
  = recs ++ flat_map (fun f => map (record_of_block (fst f))
                                 (blocks (map strip (snd f)))) gz_files.
Proof.
  revert recs. induction gz_files as [|[gz lines] fs IH]; intros recs;
    cbn [fold_left flat_map].
  - rewrite app_nil_r. reflexivity.
  - rewrite IH. unfold parse_file. cbn [fst snd].
    rewrite (proj2 (run_from_state gz lines) recs), <- app_assoc. reflexivity.
Qed.

(** X2: over several files, [parse_logs] returns the records of the blocks of
    each file, file after file, with no state carried from one file to the
    next. *)
Theorem parse_logs_blocks (gz_files : list (text * list text)) :
  parse_logs gz_files
  = flat_map (fun f => map (record_of_block (fst f)) (blocks (map strip (snd f)))) gz_files.
Proof. unfold parse_logs. apply (parse_logs_from gz_files []). Qed.

(** ** The captured timestamp *)

Lemma split_head_before (c : ascii) (pre rest : text) :
  ~ In c pre -> split_head c (pre ++ c :: rest) = pre.
Proof.
  induction pre as [|x pre IH]; simpl; intros Hn.
  - rewrite Ascii.eqb_refl. reflexivity.
  - destruct (Ascii.eqb x c) eqn:E.
    + apply Ascii.eqb_eq in E. subst x. exfalso. apply Hn. left; reflexivity.
    + f_equal. apply IH. intros H. apply Hn. right; exact H.
Qed.

Lemma contains_In (c : ascii) (s : text) : contains c s = true <-> In c s.
Proof.
  unfold contains. rewrite existsb_exists. split.
  - intros (x & Hx & E). apply Ascii.eqb_eq in E. subst x. exact Hx.
  - intros H. exists c. split; [exact H | apply Ascii.eqb_refl].
Qed.

Lemma marker_line_long (word : string) (s : text) :
  recognised (marker_re word) s = true -> 25 <= List.length s.
Proof.
  intros H. apply marker_recognised in H.
  destruct H as (d & mid & ws & rid & rest & -> & _ & _ & _ & Hl & _).
  repeat rewrite length_app. lia.
Qed.


(** C9, as the claim states it, fails: the timestamp captured from the start
    line above is not the text before its Z. *)
Lemma C9_counterexample :
  recognised start_re (strip C9_line) = true
  /\ contains "Z"%char (strip C9_line) = true
  /\ cur_start_ts (step [] (init_state []) C9_line)
     <> Some (split_head "Z"%char (strip C9_line)).
Proof.
  split; [vm_compute; reflexivity|]. split; [vm_compute; reflexivity|].
  intros H. vm_compute in H. discriminate H.
Qed.

(** C9, amended: for every start-marker line, the captured timestamp is the
    text before the first Z of the line followed by that Z when the line has
    one, and the first 25 characters of the line otherwise. *)
Theorem start_ts_captured (gz : text) (st : pstate) (raw : text) :
  recognised start_re (strip raw) = true ->
  (forall pre rest,
      strip raw = pre ++ "Z"%char :: rest -> ~ In "Z"%char pre ->
      cur_start_ts (step gz st raw) = Some (pre ++ T "Z"))
  /\ (~ In "Z"%char (strip raw) ->
      cur_start_ts (step gz st raw) = Some (firstn 25 (strip raw))
      /\ List.length (firstn 25 (strip raw)) = 25).
Proof.
  intros Hs. destruct (start_line_id _ Hs) as (c & rid & Hm).
  rewrite (step_start gz st raw _ Hm). cbn [cur_start_ts open_state]. split.
  - intros pre rest E Hn. unfold capture_ts.
    assert (Hc : contains "Z"%char (strip raw) = true).
    { apply contains_In. rewrite E. apply in_or_app. right; left; reflexivity. }
    rewrite Hc, E, (split_head_before _ _ rest Hn). reflexivity.
  - intros Hn. unfold capture_ts.
    destruct (contains "Z"%char (strip raw)) eqn:Hc.
    + apply contains_In in Hc. contradiction.
    + split; [reflexivity|].
      rewrite length_firstn. apply Nat.min_l. apply (marker_line_long "START" _ Hs).
Qed.

Lemma start_ts_captured_witness :
  cur_start_ts (step [] (init_state []) C9_line) = Some (T "2024-05-01T10:00:00.000Z").
Proof.
  apply (proj1 (start_ts_captured [] (init_state []) C9_line eq_refl)
           (T "2024-05-01T10:00:00.000")
           (T " START RequestId: 01234567-89ab-cdef-0123-456789abcdef")).
  - reflexivity.
  - intros H. repeat (destruct H as [H|H]; [discriminate H|]). exact H.
Defined.

(** ** When [analyze] raises *)

Lemma analyze_ok_inv (td : list (option text) -> list (option Z)) (recs : list record)
    (out : analysis) :
  analyze td recs = Ok out ->
  has_col "newBalance" recs = true /\ has_col "oldBalance" recs = true
  /\ has_col "amount" recs = true /\ has_col "userId" recs = true
  /\ has_col "walletId" recs = true
  /\ out = let sorted := sort_by by_user_wallet_ts_rid
                           (events_from 0 recs (td (map start_ts recs))) in
           let rows := rows_of (delta_anomaly_column recs sorted) sorted
                               (next_old_column recs sorted) in
           {| df := rows; per_user := per_user_of recs rows |}.
Proof.
  unfold analyze, enrich, sort_values, require.
  destruct (has_col "newBalance" recs); [|discriminate].
  destruct (has_col "oldBalance" recs); [|discriminate].
  destruct (has_col "amount" recs); [|discriminate].
  destruct (has_col "userId" recs); [|discriminate].
  destruct (has_col "walletId" recs); [|discriminate].
  simpl. intros [= <-]. repeat split; reflexivity.
Qed.



(** C2 fails on the code: on the records of the log above, in which no block
    has an [oldBalance], [analyze] raises [KeyError] at line 107. *)
Theorem analyze_raises_without_oldBalance (td : list (option text) -> list (option Z)) :
  map extracted (parse_logs [(T "a.gz", C2_log)])
  = [[("newBalance", T "15"); ("amount", T "5"); ("walletId", T "w1"); ("userId", T "u1")]%string]
  /\ analyze td (parse_logs [(T "a.gz", C2_log)]) = Raise (KeyError "oldBalance").
Proof. split; vm_compute; reflexivity. Qed.


(** C10 fails on the code: without a [userId] in any record, [analyze] does
    not reach its guarded branches; [sort_values] raises [KeyError] at line
    122. *)
Theorem analyze_raises_without_userId (td : list (option text) -> list (option Z)) :
  map extracted (parse_logs [(T "a.gz", C10_log)])
  = [[("oldBalance", T "10"); ("newBalance", T "15"); ("amount", T "5"); ("walletId", T "w1")]%string]
  /\ analyze td (parse_logs [(T "a.gz", C10_log)]) = Raise (KeyError "userId").
Proof. split; vm_compute; reflexivity. Qed.

(** ** Binary64 facts *)

Open Scope float_scope.

Lemma SFcompare_refl x : x <> S754_nan -> SFcompare x x = Some Eq.
Proof.
  destruct x as [s|s| |s m e]; simpl; intros H; try congruence.
  - destruct s; reflexivity.
  - destruct s; rewrite Z.compare_refl, Pos.compare_cont_refl; reflexivity.
Qed.

Lemma is_nan_Prim2SF x : is_nan x = true <-> Prim2SF x = S754_nan.
Proof.
  unfold is_nan. rewrite eqb_spec. unfold SFeqb. split.
  - intros H. destruct (Prim2SF x) eqn:E; try reflexivity;
      rewrite SFcompare_refl in H by discriminate; discriminate.
  - intros ->. reflexivity.
Qed.

Lemma not_nan_Prim2SF x : is_nan x = false <-> Prim2SF x <> S754_nan.
Proof.
  rewrite <- is_nan_Prim2SF. destruct (is_nan x); split; congruence.
Qed.

Lemma sub_nan x y : is_nan (x - y) = false -> is_nan x = false /\ is_nan y = false.
Proof.
  rewrite !not_nan_Prim2SF, sub_spec. unfold SF64sub, SFsub.
  destruct (Prim2SF x), (Prim2SF y); intros H; split; congruence.
Qed.

Lemma mul_nan x y : is_nan (x * y) = false -> is_nan x = false /\ is_nan y = false.
Proof.
  rewrite !not_nan_Prim2SF, mul_spec. unfold SF64mul, SFmul.
  destruct (Prim2SF x), (Prim2SF y); intros H; split; congruence.
Qed.

Lemma abs_nan x : is_nan (abs x) = is_nan x.
Proof.
  destruct (is_nan x) eqn:E.
  - apply is_nan_Prim2SF. rewrite abs_spec. apply is_nan_Prim2SF in E. rewrite E. reflexivity.
  - apply not_nan_Prim2SF. rewrite abs_spec. apply not_nan_Prim2SF in E.
    destruct (Prim2SF x); simpl; congruence.
Qed.

Lemma ltb_not_nan x y : (x <? y) = true -> is_nan x = false /\ is_nan y = false.
Proof.
  rewrite ltb_spec, !not_nan_Prim2SF. unfold SFltb.
  destruct (Prim2SF x), (Prim2SF y); simpl; intros H; split; congruence.
Qed.

Lemma leb_not_nan x y : (x <=? y) = true -> is_nan x = false /\ is_nan y = false.
Proof.
  rewrite leb_spec, !not_nan_Prim2SF. unfold SFleb.
  destruct (Prim2SF x), (Prim2SF y); simpl; intros H; split; congruence.
Qed.

Lemma SFcompare_antisym x y c :
  SFcompare x y = Some c -> SFcompare y x = Some (CompOpp c).
Proof.
  destruct x as [s1|s1| |s1 m1 e1], y as [s2|s2| |s2 m2 e2]; simpl; try discriminate;
    try (destruct s1; intros [= <-]; reflexivity);
    try (destruct s2; intros [= <-]; reflexivity);
    try (destruct s1, s2; intros [= <-]; reflexivity).
  assert (Hm : Pos.compare_cont Eq m2 m1 = CompOpp (Pos.compare_cont Eq m1 m2))
    by (rewrite Pos.compare_cont_antisym; reflexivity).
  rewrite (Z.compare_antisym e1 e2), Hm.
  destruct s1, s2; intros [= <-]; try reflexivity;
    destruct (e1 ?= e2)%Z; simpl; try reflexivity;
    destruct (Pos.compare_cont Eq m1 m2); reflexivity.
Qed.

Lemma SFcompare_total x y :
  x <> S754_nan -> y <> S754_nan -> exists c, SFcompare x y = Some c.
Proof.
  destruct x, y; simpl; intros; try congruence; eauto.
Qed.

Lemma leb_false_ltb x y :
  is_nan x = false -> is_nan y = false -> (x <=? y) = false -> (y <? x) = true.
Proof.
  rewrite !not_nan_Prim2SF, leb_spec, ltb_spec. unfold SFleb, SFltb.
  intros Hx Hy. destruct (SFcompare_total _ _ Hx Hy) as (c & Hc).
  rewrite Hc, (SFcompare_antisym _ _ _ Hc). destruct c; simpl; congruence.
Qed.

Lemma leb_true_ltb x y : (x <=? y) = true -> (y <? x) = false.
Proof.
  rewrite leb_spec, ltb_spec. unfold SFleb, SFltb.
  destruct (SFcompare (Prim2SF x) (Prim2SF y)) as [c|] eqn:Hc; [|discriminate].
  rewrite (SFcompare_antisym _ _ _ Hc). destruct c; simpl; congruence.
Qed.

Lemma eqb_leb x y : (x =? y) = true -> (x <=? y) = true.
Proof.
  rewrite leb_spec, eqb_spec. unfold SFleb, SFeqb.
  destruct (SFcompare (Prim2SF x) (Prim2SF y)) as [[]|]; congruence.
Qed.

Lemma SFsub_opp x y : SFsub prec emax x (SFopp y) = SFadd prec emax x y.
Proof.
  destruct x as [sx|sx| |sx mx ex], y as [sy|sy| |sy my ey]; simpl; try reflexivity;
    try (destruct sx, sy; reflexivity); try (destruct sy; reflexivity).
Qed.

Lemma sub_opp x y : x - (- y) = x + y.
Proof.
  apply Prim2SF_inj. rewrite sub_spec, opp_spec, add_spec. apply SFsub_opp.
Qed.


Lemma Prim2SF_one : Prim2SF 1 = S754_finite false 4503599627370496 (-52).
Proof. reflexivity. Qed.

Lemma Prim2SF_minus_one : Prim2SF (-1) = S754_finite true 4503599627370496 (-52).
Proof. reflexivity. Qed.

Lemma iter_shr_1_52 (m : positive) :
  iter_pos shr_1 52 {| shr_m := Zpos (4503599627370496 * m); shr_r := false; shr_s := false |}
  = {| shr_m := Zpos m; shr_r := false; shr_s := false |}.
Proof. reflexivity. Qed.

Lemma digits_shift (m : positive) :
  Zdigits2 (Zpos (4503599627370496 * m)) = (Zpos (digits2_pos m) + 52)%Z.
Proof.
  cbn [Zdigits2 Pos.mul digits2_pos]. rewrite !Pos2Z.inj_succ. lia.
Qed.

(** Rounding [m * 2^52] at exponent [e - 52] gives back [m] at [e]. *)
Lemma round_shifted (s : bool) (m : positive) (e : Z) :
  valid_binary (S754_finite s m e) = true ->
  binary_round_aux prec emax s (Zpos (4503599627370496 * m)) (-52 + e) loc_Exact
  = S754_finite s m e.
Proof.
  cbn [valid_binary SpecFloat.valid_binary bounded]. intros H.
  apply andb_prop in H. destruct H as [Hc He]. unfold canonical_mantissa in Hc.
  apply Z.eqb_eq in Hc.
  unfold binary_round_aux.
  unfold shr_fexp at 1. rewrite digits_shift.
  replace (Z.pos (digits2_pos m) + 52 + (-52 + e))%Z with (Z.pos (digits2_pos m) + e)%Z by lia.
  rewrite Hc. replace (e - (-52 + e))%Z with 52%Z by lia.
  cbn [shr_record_of_loc shr]. rewrite iter_shr_1_52.
  cbn [shr_m loc_of_shr_record round_nearest_even].
  unfold shr_fexp. cbn [Zdigits2].
  replace (-52 + e + 52)%Z with e by lia. rewrite Hc, Z.sub_diag.
  cbn [shr shr_record_of_loc shr_m]. rewrite He. reflexivity.
Qed.

Lemma SFmul_unit (sx : bool) (y : spec_float) :
  valid_binary y = true ->
  SFmul prec emax y (S754_finite sx 4503599627370496 (-52))
  = if sx then SFopp y else y.
Proof.
  destruct y as [s|s| |s m e]; intros Hv.
  - destruct sx, s; reflexivity.
  - destruct sx, s; reflexivity.
  - destruct sx; reflexivity.
  - cbn [SFmul]. rewrite Pos.mul_comm, Z.add_comm.
    destruct sx; cbn [SFopp].
    + rewrite xorb_true_r. apply round_shifted. exact Hv.
    + rewrite xorb_false_r. apply round_shifted. exact Hv.
Qed.

Lemma mul_one_r x : x * 1 = x.
Proof.
  apply Prim2SF_inj. rewrite mul_spec, Prim2SF_one. unfold SF64mul.
  rewrite SFmul_unit by apply Prim2SF_valid. reflexivity.
Qed.

Lemma mul_minus_one_r x : x * (-1) = - x.
Proof.
  apply Prim2SF_inj. rewrite mul_spec, Prim2SF_minus_one, opp_spec. unfold SF64mul.
  rewrite SFmul_unit by apply Prim2SF_valid. reflexivity.
Qed.

(** Differences of finite values are numbers. *)
Lemma iter_pos_inv {A : Type} (P : A -> Prop) (f : A -> A) :
  (forall x, P x -> P (f x)) -> forall p x, P x -> P (iter_pos f p x).
Proof.
  intros Hf. induction p as [p IH|p IH|]; intros x Hx; simpl; auto.
Qed.

Lemma shr_1_nonneg mrs : (0 <= shr_m mrs)%Z -> (0 <= shr_m (shr_1 mrs))%Z.
Proof.
  destruct mrs as [m r s]. destruct m as [|[p|p|]|p]; simpl; lia.
Qed.

Lemma shr_fexp_nonneg m e l :
  (0 <= m)%Z -> (0 <= shr_m (fst (shr_fexp prec emax m e l)))%Z.
Proof.
  intros Hm. unfold shr_fexp, shr.
  assert (H0 : (0 <= shr_m (shr_record_of_loc m l))%Z)
    by (destruct l as [|[]]; exact Hm).
  destruct (fexp prec emax (Zdigits2 m + e) - e)%Z; simpl; auto.
  apply iter_pos_inv; auto using shr_1_nonneg.
Qed.

Lemma round_nearest_even_nonneg m l : (0 <= m)%Z -> (0 <= round_nearest_even m l)%Z.
Proof.
  intros Hm. destruct l as [|[]]; simpl; try lia. destruct (Z.even m); lia.
Qed.

Lemma binary_round_aux_number s m e l :
  (0 <= m)%Z -> binary_round_aux prec emax s m e l <> S754_nan.
Proof.
  intros Hm. unfold binary_round_aux.
  pose proof (shr_fexp_nonneg m e l Hm) as H1.
  destruct (shr_fexp prec emax m e l) as [mrs' e']. simpl in H1.
  pose proof (shr_fexp_nonneg _ e' loc_Exact
                (round_nearest_even_nonneg _ (loc_of_shr_record mrs') H1)) as H2.
  destruct (shr_fexp prec emax _ e' loc_Exact) as [mrs'' e'']. simpl in H2.
  destruct (shr_m mrs''); try discriminate; [|lia].
  destruct (e'' <=? emax - prec)%Z; discriminate.
Qed.

Lemma binary_normalize_number m e sz : binary_normalize prec emax m e sz <> S754_nan.
Proof.
  destruct m; simpl; try discriminate; unfold binary_round;
    destruct (shl_align _ _ _); apply binary_round_aux_number; lia.
Qed.


Lemma is_finite_SF x : is_finite x = true -> SFfinite (Prim2SF x).
Proof.
  unfold is_finite, is_infinity, is_nan. rewrite !eqb_spec, abs_spec.
  change (Prim2SF infinity) with (S754_infinity false).
  destruct (Prim2SF x) as [s|s| |s m e]; simpl; try discriminate; auto.
  destruct s; discriminate.
Qed.

Lemma sub_finite x y : is_finite x = true -> is_finite y = true -> is_nan (x - y) = false.
Proof.
  intros Hx Hy. apply is_finite_SF in Hx, Hy. apply not_nan_Prim2SF.
  rewrite sub_spec. unfold SF64sub.
  destruct (Prim2SF x) as [sx|sx| |sx mx ex], (Prim2SF y) as [sy|sy| |sy my ey];
    simpl in *; try contradiction; try discriminate.
  - destruct sx, sy; discriminate.
  - apply binary_normalize_number.
Qed.

Lemma opp_finite x : is_finite (- x) = is_finite x.
Proof.
  unfold is_finite, is_infinity, is_nan. rewrite !eqb_spec, !abs_spec, opp_spec.
  destruct (Prim2SF x) as [s|s| |s m e]; try reflexivity;
    try (destruct s; reflexivity).
  unfold SFeqb. cbn [SFopp SFabs]. rewrite !SFcompare_refl by discriminate.
  reflexivity.
Qed.

Lemma ltb_leb x y : (x <? y) = true -> (x <=? y) = true.
Proof.
  rewrite leb_spec, ltb_spec. unfold SFleb, SFltb.
  destruct (SFcompare (Prim2SF x) (Prim2SF y)) as [[]|]; congruence.
Qed.

Close Scope float_scope.

(** ** The rows of the frame *)

Lemma events_from_In (i : nat) (recs : list record) (tss : list (option Z)) (e : event) :
  In e (events_from i recs tss) ->
  exists j rec t, nth_error recs j = Some rec /\ e = event_of (i + j) rec t.
Proof.
  revert i tss; induction recs as [|r recs IH]; intros i tss; simpl; [intros []|].
  intros [<-|H].
  - exists 0, r, (hd None tss). rewrite Nat.add_0_r. auto.
  - destruct (IH _ _ H) as (j & rec & t & Hj & ->).
    exists (S j), rec, t. rewrite Nat.add_succ_r. auto.
Qed.

Lemma events_from_idx (i : nat) (recs : list record) (tss : list (option Z)) :
  map idx (events_from i recs tss) = List.seq i (List.length recs).
Proof.
  revert i tss; induction recs as [|r recs IH]; intros i tss; simpl; [reflexivity|].
  rewrite IH. reflexivity.
Qed.

Section SortFacts.

Variable A : Type.
Variable cmp : A -> A -> comparison.

Lemma insert_sorted_perm (x : A) (l : list A) :
  Permutation (insert_sorted cmp x l) (x :: l).
Proof.
  induction l as [|y l IH]; simpl; [reflexivity|].
  destruct (le_of cmp x y); [reflexivity|].
  rewrite IH. apply perm_swap.
Qed.

Lemma sort_by_perm (l : list A) : Permutation (sort_by cmp l) l.
Proof.
  induction l as [|x l IH]; simpl; [reflexivity|].
  rewrite insert_sorted_perm, IH. reflexivity.
Qed.

Lemma sort_by_In (l : list A) (x : A) : In x (sort_by cmp l) <-> In x l.
Proof.
  split; apply Permutation_in; [|symmetry]; apply sort_by_perm.
Qed.

End SortFacts.

Lemma rows_of_ev (a : event -> option bool) (sorted : list event) (nexts : list float) :
  map ev (rows_of a sorted nexts) = sorted.
Proof.
  revert nexts; induction sorted as [|e l IH]; intros nexts; simpl; [reflexivity|].
  rewrite IH. reflexivity.
Qed.

(** The frame [analyze] returns has one row for each record, computed from
    that record by lines 96 to 120. *)
Lemma analyze_rows (td : list (option text) -> list (option Z)) (recs : list record)
    (out : analysis) :
  analyze td recs = Ok out ->
  Permutation (map (fun r => idx (ev r)) (df out)) (List.seq 0 (List.length recs))
  /\ forall r, In r (df out) ->
       exists rec t, nth_error recs (idx (ev r)) = Some rec /\ ev r = event_of (idx (ev r)) rec t.
Proof.
  intros H. apply analyze_ok_inv in H. destruct H as (_ & _ & _ & _ & _ & ->).
  cbn [df]. split.
  - rewrite <- (map_map ev idx), rows_of_ev, <- (events_from_idx 0 recs (td (map start_ts recs))).
    apply Permutation_map, sort_by_perm.
  - intros r Hr. apply (in_map ev) in Hr. rewrite rows_of_ev in Hr.
    apply sort_by_In in Hr. apply events_from_In in Hr.
    destruct Hr as (j & rec & t & Hj & He). exists rec, t.
    rewrite He. cbn [idx event_of]. auto.
Qed.

(** ** Fields that matched nowhere *)

Lemma assoc_app_none (k : string) (l1 l2 : list (string * text)) :
  assoc k l1 = None -> assoc k (l1 ++ l2) = assoc k l2.
Proof.
  induction l1 as [|[k' v] l1 IH]; simpl; [reflexivity|].
  destruct (String.eqb k k'); [discriminate | exact IH].
Qed.

Lemma extract_none (k : string) (txt rid gz : text) (t : option text)
    (patterns : list (string * regex)) :
  (forall r, In (k, r) patterns -> search r txt = None) ->
  rec_get k (_extract_record txt rid gz t patterns) = None.
Proof.
  unfold rec_get, _extract_record. cbn [extracted].
  induction patterns as [|[k' r'] ps IH]; intros H; simpl; [reflexivity|].
  rewrite assoc_app_none.
  - apply IH. intros r Hr. apply H. right; exact Hr.
  - destruct (String.eqb k k') eqn:E.
    + apply String.eqb_eq in E. subst k'. rewrite (H r' (or_introl eq_refl)). reflexivity.
    + destruct (search r' txt) as [[v|]|]; simpl; [rewrite E|..]; reflexivity.
Qed.

Lemma amount_absent (txt rid gz : text) (t : option text) :
  search (num_field "amount") txt = None ->
  rec_get "amount" (_extract_record txt rid gz t fields_patterns) = None.
Proof.
  intros H. apply extract_none. intros r Hr. unfold fields_patterns in Hr.
  repeat (destruct Hr as [Hr|Hr]; [try discriminate Hr|]); try contradiction.
  injection Hr as <-. exact H.
Qed.

(** ** Sign inference and mismatch *)

Open Scope float_scope.

Lemma mul_nan_l x y : is_nan x = true -> is_nan (x * y) = true.
Proof.
  intros H. destruct (is_nan (x * y)) eqn:E; [reflexivity|].
  apply mul_nan in E. destruct E as [E _]. congruence.
Qed.

Lemma best_sign_cases (amt dlt : float) :
  is_nan amt = false -> is_nan dlt = false ->
  (best_sign amt dlt = 1 /\ (abs (dlt - amt) <=? abs (dlt + amt)) = true)
  \/ (best_sign amt dlt = -1 /\ (abs (dlt - amt) <=? abs (dlt + amt)) = false).
Proof.
  intros Ha Hd. unfold best_sign. rewrite Ha, Hd. cbn [orb].
  destruct (abs (dlt - amt) <=? abs (dlt + amt)); auto.
Qed.

(** C5: in every row of the frame, [amount_sign] is unknown when [amount] or
    [delta] is; when both are known it is +1 or -1, it is +1 when the two
    signs are equally close, and it minimises the distance from [delta] to
    [amount * sign]: the other sign is never strictly closer, and the
    distance under [amount_sign] is at most the distance under the other sign
    whenever the two distances are numbers, as they are for every finite
    [amount] and [delta]. *)
Theorem amount_sign_closest (td : list (option text) -> list (option Z))
    (recs : list record) (out : analysis) (r : row) :
  analyze td recs = Ok out -> In r (df out) ->
  let a := amount (ev r) in
  let d := delta (ev r) in
  let s := amount_sign (ev r) in
  (is_nan a = true \/ is_nan d = true -> is_nan s = true)
  /\ (is_nan a = false -> is_nan d = false ->
      (s = 1 \/ s = -1)
      /\ ((abs (d - a * 1) =? abs (d - a * (-1))) = true -> s = 1)
      /\ (abs (d - a * (- s)) <? abs (d - a * s)) = false
      /\ (is_nan (abs (d - a * 1)) = false -> is_nan (abs (d - a * (-1))) = false ->
          (abs (d - a * s) <=? abs (d - a * (- s))) = true))
  /\ (is_finite a = true -> is_finite d = true ->
      is_nan (abs (d - a * 1)) = false /\ is_nan (abs (d - a * (-1))) = false).
Proof.
  intros Hok Hr. destruct (proj2 (analyze_rows td recs out Hok) r Hr) as (rec & t & _ & He).
  rewrite He. cbn [amount delta amount_sign event_of].
  set (a := to_float (rec_get "amount" rec)).
  set (d := to_float (rec_get "newBalance" rec) - to_float (rec_get "oldBalance" rec)).
  cbv zeta. rewrite mul_one_r, mul_minus_one_r, sub_opp. split; [|split].
  - intros H. unfold best_sign.
    destruct H as [H|H]; rewrite H; [|rewrite orb_true_r]; reflexivity.
  - intros Ha Hd. destruct (best_sign_cases a d Ha Hd) as [[-> Hle]|[-> Hle]].
    + change (- (1))%float with (-1)%float.
      rewrite mul_one_r, mul_minus_one_r, sub_opp.
      split; [left; reflexivity|]. split; [reflexivity|].
      split; [apply leb_true_ltb; exact Hle|]. intros _ _. exact Hle.
    + change (- (-1))%float with 1%float.
      rewrite mul_one_r, mul_minus_one_r, sub_opp.
      split; [right; reflexivity|]. split; [|split].
      * intros Heq. apply eqb_leb in Heq. congruence.
      * destruct (abs (d - a) <? abs (d + a)) eqn:Hlt; [|reflexivity].
        apply ltb_leb in Hlt. congruence.
      * intros Hp Hm. apply ltb_leb. apply leb_false_ltb; assumption.
  - intros Ha Hd. rewrite !abs_nan. split.
    + apply sub_finite; assumption.
    + rewrite <- sub_opp. apply sub_finite; [assumption|].
      rewrite opp_finite. assumption.
Qed.

Close Scope float_scope.

Lemma sample_analysis_ok : analyze sample_clock sample_records = Ok sample_analysis.
Proof. vm_compute. reflexivity. Qed.

Lemma sample_row_In (i : nat) : i < 15 -> In (sample_row i) (df sample_analysis).
Proof.
  intros H. apply nth_In.
  replace (List.length (df sample_analysis)) with 15 by (vm_compute; reflexivity).
  exact H.
Qed.

Open Scope float_scope.

Lemma amount_sign_closest_witness :
  (abs (delta (ev (sample_row 12))
        - amount (ev (sample_row 12)) * amount_sign (ev (sample_row 12)))
   <=? abs (delta (ev (sample_row 12))
            - amount (ev (sample_row 12)) * - amount_sign (ev (sample_row 12)))) = true.
Proof.
  refine (proj2 (proj2 (proj2 (proj1 (proj2
            (amount_sign_closest sample_clock sample_records sample_analysis
               (sample_row 12) sample_analysis_ok (sample_row_In 12 _))) _ _))) _ _).
  - lia.
  - vm_compute; reflexivity.
  - vm_compute; reflexivity.
  - vm_compute; reflexivity.
  - vm_compute; reflexivity.
Defined.

(** C6: in every row of the frame, [mismatch] is true exactly when [delta]
    and [expected_delta] are both known and differ by more than 1e-6; a row
    whose record has no [amount] has an unknown [amount_sign] and
    [expected_delta] and no mismatch, and a block whose text the [amount]
    pattern matches nowhere gives such a record. *)
Theorem mismatch_known_only (td : list (option text) -> list (option Z))
    (recs : list record) (out : analysis) (r : row) :
  analyze td recs = Ok out -> In r (df out) ->
  let e := ev r in
  (mismatch e = true
   <-> is_nan (delta e) = false /\ is_nan (expected_delta e) = false
       /\ gtb (abs (delta e - expected_delta e)) 1e-6 = true)
  /\ (is_nan (delta e) = true \/ is_nan (expected_delta e) = true -> mismatch e = false)
  /\ (rec_get "amount" (src e) = None ->
      is_nan (amount_sign e) = true /\ is_nan (expected_delta e) = true
      /\ mismatch e = false)
  /\ (forall txt rid gz t,
         search (num_field "amount") txt = None ->
         rec_get "amount" (_extract_record txt rid gz t fields_patterns) = None).
Proof.
  intros Hok Hr. destruct (proj2 (analyze_rows td recs out Hok) r Hr) as (rec & t & _ & He).
  cbv zeta. rewrite He. cbn [mismatch delta expected_delta amount_sign src event_of].
  set (a := to_float (rec_get "amount" rec)).
  set (d := to_float (rec_get "newBalance" rec) - to_float (rec_get "oldBalance" rec)).
  assert (Hk : gtb (abs (d - a * best_sign a d)) 1e-6 = true ->
               is_nan d = false /\ is_nan (a * best_sign a d) = false).
  { unfold gtb. intros H. apply ltb_not_nan in H. destruct H as [_ H].
    rewrite abs_nan in H. apply sub_nan in H. exact H. }
  split; [|split; [|split]].
  - split.
    + intros H. destruct (Hk H) as [H1 H2]. auto.
    + intros (_ & _ & H). exact H.
  - intros H. destruct (gtb (abs (d - a * best_sign a d)) 1e-6) eqn:E; [|reflexivity].
    destruct (Hk eq_refl) as [H1 H2]. destruct H; congruence.
  - intros Hnone. subst a. rewrite Hnone. cbn [to_float].
    assert (Hs : is_nan (best_sign nan d) = true) by reflexivity.
    assert (He' : is_nan (nan * best_sign nan d) = true) by (apply mul_nan_l; reflexivity).
    split; [exact Hs|]. split; [exact He'|].
    destruct (gtb (abs (d - nan * best_sign nan d)) 1e-6) eqn:E; [|reflexivity].
    unfold gtb in E. apply ltb_not_nan in E. destruct E as [_ E].
    rewrite abs_nan in E. apply sub_nan in E. destruct E as [_ E]. congruence.
  - intros txt rid gz t0. apply amount_absent.
Qed.

Lemma mismatch_known_only_witness :
  is_nan (amount_sign (ev (sample_row 14))) = true
  /\ is_nan (expected_delta (ev (sample_row 14))) = true
  /\ mismatch (ev (sample_row 14)) = false.
Proof.
  refine (proj1 (proj2 (proj2
            (mismatch_known_only sample_clock sample_records sample_analysis
               (sample_row 14) sample_analysis_ok (sample_row_In 14 _)))) _).
  - lia.
  - vm_compute; reflexivity.
Defined.

Close Scope float_scope.

(** ** Orders and the stable sort *)

Lemma text_eqb_eq (a b : text) : text_eqb a b = true <-> a = b.
Proof.
  revert b; induction a as [|x a IH]; intros [|y b]; simpl; split;
    try discriminate; try reflexivity.
  - intros H. apply andb_prop in H. destruct H as [H1 H2].
    apply Ascii.eqb_eq in H1. apply IH in H2. congruence.
  - intros [= -> ->]. rewrite Ascii.eqb_refl. apply IH. reflexivity.
Qed.

Lemma text_eqb_refl (a : text) : text_eqb a a = true.
Proof. apply text_eqb_eq. reflexivity. Qed.


Lemma law_eq_r {A : Type} (cmp : A -> A -> comparison) (L : lawful cmp) (a b c : A) :
  cmp b c = Eq -> cmp a b = cmp a c.
Proof.
  intros H. rewrite (law_flip L b a), (law_flip L c a). f_equal.
  apply (law_eq_l L). exact H.
Qed.

Lemma law_refl {A : Type} (cmp : A -> A -> comparison) (L : lawful cmp) (a : A) :
  cmp a a = Eq.
Proof.
  pose proof (law_flip L a a) as H. destruct (cmp a a); simpl in H; congruence.
Qed.

Lemma lawful_Z : lawful Z.compare.
Proof.
  split.
  - intros a b. apply Z.compare_antisym.
  - intros a b c H. apply Z.compare_eq in H. subst. reflexivity.
  - intros a b c. rewrite !Z.compare_lt_iff. lia.
Qed.

Lemma lawful_nat : lawful Nat.compare.
Proof.
  split.
  - intros a b. apply Nat.compare_antisym.
  - intros a b c H. apply Nat.compare_eq in H. subst. reflexivity.
  - intros a b c. rewrite !Nat.compare_lt_iff. lia.
Qed.

Lemma text_cmp_eq (a b : text) : text_cmp a b = Eq -> a = b.
Proof.
  revert b; induction a as [|x a IH]; intros [|y b]; simpl; try discriminate; auto.
  destruct (Nat.compare (nat_of_ascii x) (nat_of_ascii y)) eqn:E; try discriminate.
  intros H. apply Nat.compare_eq in E.
  assert (x = y) by (rewrite <- (ascii_nat_embedding x), <- (ascii_nat_embedding y), E; reflexivity).
  f_equal; auto.
Qed.

Lemma lawful_text : lawful text_cmp.
Proof.
  split.
  - induction a as [|x a IH]; intros [|y b]; simpl; try reflexivity.
    rewrite (Nat.compare_antisym (nat_of_ascii x) (nat_of_ascii y)).
    destruct (Nat.compare (nat_of_ascii x) (nat_of_ascii y)); simpl; auto.
  - intros a b c H. apply text_cmp_eq in H. subst. reflexivity.
  - induction a as [|x a IH]; intros [|y b] [|z c]; simpl; try discriminate; auto.
    destruct (Nat.compare (nat_of_ascii x) (nat_of_ascii y)) eqn:E1; try discriminate;
      destruct (Nat.compare (nat_of_ascii y) (nat_of_ascii z)) eqn:E2; try discriminate.
    + apply Nat.compare_eq in E1, E2. rewrite E1, E2, Nat.compare_refl. apply IH.
    + apply Nat.compare_eq in E1. rewrite E1, E2. reflexivity.
    + apply Nat.compare_eq in E2. rewrite <- E2, E1. reflexivity.
    + rewrite (law_lt lawful_nat _ _ _ E1 E2). reflexivity.
Qed.

Lemma lawful_opt {A : Type} (cmp : A -> A -> comparison) :
  lawful cmp -> lawful (opt_cmp cmp).
Proof.
  intros L. split.
  - intros [a|] [b|]; simpl; try reflexivity. apply (law_flip L).
  - intros [a|] [b|] [c|]; simpl; try discriminate; try reflexivity. apply (law_eq_l L).
  - intros [a|] [b|] [c|]; simpl; try discriminate; try reflexivity. apply (law_lt L).
Qed.

Lemma lawful_on {A B : Type} (f : B -> A) (cmp : A -> A -> comparison) :
  lawful cmp -> lawful (fun x y => cmp (f x) (f y)).
Proof.
  intros L. split; intros.
  - apply (law_flip L).
  - apply (law_eq_l L). assumption.
  - eapply (law_lt L); eassumption.
Qed.

Lemma lawful_lex {A : Type} (c1 c2 : A -> A -> comparison) :
  lawful c1 -> lawful c2 -> lawful (fun x y => lex (c1 x y) (c2 x y)).
Proof.
  intros L1 L2. split.
  - intros a b. rewrite (law_flip L1 a b), (law_flip L2 a b).
    destruct (c1 a b); reflexivity.
  - intros a b c H. unfold lex in *.
    destruct (c1 a b) eqn:E1; try discriminate.
    rewrite (law_eq_l L1 a b c E1), (law_eq_l L2 a b c H). reflexivity.
  - intros a b c Hab Hbc. unfold lex in *.
    destruct (c1 a b) eqn:E1; try discriminate;
      destruct (c1 b c) eqn:E2; try discriminate.
    + rewrite (law_eq_l L1 a b c E1), E2. apply (law_lt L2 a b c Hab Hbc).
    + rewrite (law_eq_l L1 a b c E1), E2. reflexivity.
    + rewrite <- (law_eq_r c1 L1 a b c E2), E1. reflexivity.
    + rewrite (law_lt L1 a b c E1 E2). reflexivity.
Qed.

Lemma lawful_by_ts_rid : lawful by_ts_rid.
Proof.
  unfold by_ts_rid.
  apply (lawful_lex (fun a b => opt_cmp Z.compare (ts a) (ts b))
                    (fun a b => text_cmp (requestId (src a)) (requestId (src b)))).
  - apply (lawful_on ts), lawful_opt, lawful_Z.
  - apply (lawful_on (fun e => requestId (src e))), lawful_text.
Qed.

Lemma lawful_by_wallet_ts_rid : lawful by_wallet_ts_rid.
Proof.
  unfold by_wallet_ts_rid.
  apply (lawful_lex (fun a b => opt_cmp text_cmp (walletId a) (walletId b)) by_ts_rid).
  - apply (lawful_on walletId), lawful_opt, lawful_text.
  - apply lawful_by_ts_rid.
Qed.

Lemma lawful_by_user_wallet_ts_rid : lawful by_user_wallet_ts_rid.
Proof.
  unfold by_user_wallet_ts_rid.
  apply (lawful_lex (fun a b => opt_cmp text_cmp (userId a) (userId b)) by_wallet_ts_rid).
  - apply (lawful_on userId), lawful_opt, lawful_text.
  - apply lawful_by_wallet_ts_rid.
Qed.

Section SortedFacts.

Variable A : Type.
Variable cmp : A -> A -> comparison.
Hypothesis L : lawful cmp.

Abbreviation le := (le_by cmp).

Lemma le_of_trans (a b c : A) : le a b -> le b c -> le a c.
Proof.
  unfold le_by, le_of. intros Hab Hbc.
  destruct (cmp a b) eqn:E1; try discriminate;
    destruct (cmp b c) eqn:E2; try discriminate.
  - rewrite (law_eq_l L a b c E1), E2. reflexivity.
  - rewrite (law_eq_l L a b c E1), E2. reflexivity.
  - rewrite <- (law_eq_r cmp L a b c E2), E1. reflexivity.
  - rewrite (law_lt L a b c E1 E2). reflexivity.
Qed.

Lemma le_of_total (a b : A) : le_of cmp a b = false -> le b a.
Proof.
  unfold le_by, le_of. rewrite (law_flip L a b). destruct (cmp a b); simpl; congruence.
Qed.

Lemma insert_sorted_In (x y : A) (l : list A) :
  In y (insert_sorted cmp x l) <-> y = x \/ In y l.
Proof.
  split.
  - intros H. apply (Permutation_in _ (insert_sorted_perm _ cmp x l)) in H.
    destruct H; auto.
  - intros H. apply (Permutation_in _ (Permutation_sym (insert_sorted_perm _ cmp x l))).
    destruct H; [left|right]; auto.
Qed.

Lemma insert_sorted_sorted (x : A) (l : list A) :
  StronglySorted le l -> StronglySorted le (insert_sorted cmp x l).
Proof.
  induction l as [|y l IH]; simpl; intros Hs.
  - constructor; constructor.
  - inversion Hs as [|? ? Hl Hy]; subst.
    destruct (le_of cmp x y) eqn:E.
    + constructor; [exact Hs|]. constructor; [exact E|].
      rewrite Forall_forall in *. intros z Hz. apply (le_of_trans x y z E). auto.
    + constructor; [apply IH; exact Hl|].
      rewrite Forall_forall in *. intros z Hz. apply insert_sorted_In in Hz.
      destruct Hz as [->|Hz]; [apply le_of_total; exact E | auto].
Qed.

Lemma sort_by_sorted (l : list A) : StronglySorted le (sort_by cmp l).
Proof.
  induction l as [|x l IH]; simpl; [constructor|].
  apply insert_sorted_sorted. exact IH.
Qed.

(** Inserting in front of a list of later values. *)
Lemma insert_sorted_front (x : A) (l : list A) :
  Forall (le x) l -> insert_sorted cmp x l = x :: l.
Proof.
  destruct l as [|y l]; simpl; [reflexivity|]. intros H. inversion H; subst.
  unfold le_by in *. match goal with E : le_of cmp x y = true |- _ => rewrite E end.
  reflexivity.
Qed.

Variable p : A -> bool.

Lemma filter_insert_sorted (x : A) (l : list A) :
  StronglySorted le l ->
  filter p (insert_sorted cmp x l)
  = if p x then insert_sorted cmp x (filter p l) else filter p l.
Proof.
  induction l as [|y l IH]; intros Hs.
  - simpl. destruct (p x); reflexivity.
  - inversion Hs as [|? ? Hl Hy]; subst. cbn [insert_sorted].
    destruct (le_of cmp x y) eqn:E.
    + cbn [filter]. destruct (p x) eqn:Px; [|reflexivity].
      symmetry. apply insert_sorted_front.
      assert (Hall : Forall (le x) (y :: l)).
      { constructor; [exact E|]. rewrite Forall_forall in *. intros z Hz.
        apply (le_of_trans x y z E). auto. }
      rewrite Forall_forall in *. intros z Hz.
      change (In z (filter p (y :: l))) in Hz. apply filter_In in Hz.
      apply Hall. tauto.
    + cbn [filter]. rewrite (IH Hl).
      destruct (p y) eqn:Py; destruct (p x) eqn:Px; try reflexivity.
      cbn [insert_sorted]. rewrite E. reflexivity.
Qed.

(** Filtering commutes with the stable sort. *)
Lemma filter_sort_by (l : list A) :
  filter p (sort_by cmp l) = sort_by cmp (filter p l).
Proof.
  induction l as [|x l IH]; [reflexivity|]. cbn [sort_by filter].
  rewrite filter_insert_sorted by apply sort_by_sorted.
  destruct (p x); [cbn [sort_by]; rewrite IH; reflexivity | exact IH].
Qed.

End SortedFacts.

(** Two comparisons that agree on a list sort it alike. *)
Lemma insert_sorted_ext {A : Type} (c1 c2 : A -> A -> comparison) (x : A) (l : list A) :
  (forall y, In y l -> le_of c1 x y = le_of c2 x y) ->
  insert_sorted c1 x l = insert_sorted c2 x l.
Proof.
  induction l as [|y l IH]; intros H; simpl; [reflexivity|].
  rewrite (H y (or_introl eq_refl)), IH; [reflexivity|].
  intros z Hz. apply H. right; exact Hz.
Qed.

Lemma sort_by_ext {A : Type} (c1 c2 : A -> A -> comparison) (l : list A) :
  (forall x y, In x l -> In y l -> le_of c1 x y = le_of c2 x y) ->
  sort_by c1 l = sort_by c2 l.
Proof.
  induction l as [|x l IH]; intros H; simpl; [reflexivity|].
  rewrite IH by (intros; apply H; right; assumption).
  apply insert_sorted_ext. intros y Hy. apply H; [left; reflexivity|].
  right. apply (sort_by_In _ c2 l y). exact Hy.
Qed.

(** ** Flow continuity *)

Lemma text_eqb_sym (a b : text) : text_eqb a b = text_eqb b a.
Proof.
  destruct (text_eqb a b) eqn:E.
  - apply text_eqb_eq in E. subst. symmetry. apply text_eqb_refl.
  - destruct (text_eqb b a) eqn:E'; [|reflexivity].
    apply text_eqb_eq in E'. subst. rewrite text_eqb_refl in E. discriminate.
Qed.

Lemma key_is_eq (key : event -> option text) (k : text) (e : event) :
  key_is key k e = true <-> key e = Some k.
Proof.
  unfold key_is. destruct (key e) as [k'|].
  - rewrite text_eqb_eq. split; congruence.
  - split; discriminate.
Qed.

Lemma same_group_in_group (e x : event) (u w : text) :
  userId e = Some u -> walletId e = Some w -> same_group e x = in_group u w x.
Proof.
  intros Hu Hw. unfold same_group, in_group, key_is. rewrite Hu, Hw.
  destruct (userId x) as [u'|]; [|reflexivity].
  destruct (walletId x) as [w'|]; [|rewrite andb_false_r; reflexivity].
  rewrite (text_eqb_sym u u'), (text_eqb_sym w w'). reflexivity.
Qed.

Lemma same_group_none (e x : event) :
  userId e = None \/ walletId e = None -> same_group e x = false.
Proof.
  unfold same_group. intros [H|H]; rewrite H; [reflexivity|].
  destruct (userId e); reflexivity.
Qed.

Lemma find_ext {A : Type} (f g : A -> bool) (l : list A) :
  (forall x, f x = g x) -> find f l = find g l.
Proof.
  intros H. induction l as [|x l IH]; simpl; [reflexivity|]. rewrite H, IH. reflexivity.
Qed.

Lemma find_filter {A : Type} (f : A -> bool) (l : list A) :
  find f l = hd_error (filter f l).
Proof.
  induction l as [|x l IH]; simpl; [reflexivity|]. destruct (f x); [reflexivity | exact IH].
Qed.

Lemma next_after_split (i : nat) (l1 l2 : list event) (e : event) :
  idx e = i -> ~ In i (map idx l1) -> next_after i (l1 ++ e :: l2) = hd_error l2.
Proof.
  intros He. induction l1 as [|x l1 IH]; simpl; intros Hn.
  - rewrite He, Nat.eqb_refl. reflexivity.
  - destruct (Nat.eqb (idx x) i) eqn:E.
    + apply Nat.eqb_eq in E. exfalso. apply Hn. left; exact E.
    + apply IH. intros H. apply Hn. right; exact H.
Qed.

Lemma NoDup_app_head {A : Type} (l1 l2 : list A) (x : A) :
  NoDup (l1 ++ x :: l2) -> ~ In x l1.
Proof.
  intros H Hin. apply NoDup_remove_2 in H. apply H. apply in_or_app. left; exact Hin.
Qed.

(** Each row of the frame, with the rows before and after it. *)
Lemma rows_of_split (a : event -> option bool) (l : list event) (r : row) :
  In r (rows_of a l (shift_next_old l)) ->
  exists l1 l2,
    l = l1 ++ ev r :: l2
    /\ next_old r = match find (same_group (ev r)) l2 with
                    | Some e' => oldBalance e'
                    | None => PrimFloat.nan
                    end
    /\ flow_break r = flow_break_of (ev r) (next_old r)
    /\ delta_anomaly r = fill_false (a (ev r)).
Proof.
  induction l as [|e l IH]; simpl; [intros []|]. intros [<-|H].
  - exists [], l. simpl. auto.
  - destruct (IH H) as (l1 & l2 & -> & H1 & H2 & H3).
    exists (e :: l1), l2. simpl. auto.
Qed.

Lemma by_user_wallet_in_group (u w : text) (x y : event) :
  in_group u w x = true -> in_group u w y = true ->
  by_user_wallet_ts_rid x y = by_ts_rid x y.
Proof.
  unfold in_group. intros Hx Hy.
  apply andb_prop in Hx, Hy. destruct Hx as [Hxu Hxw], Hy as [Hyu Hyw].
  apply key_is_eq in Hxu, Hxw, Hyu, Hyw.
  unfold by_user_wallet_ts_rid, by_wallet_ts_rid. rewrite Hxu, Hxw, Hyu, Hyw.
  cbn [opt_cmp]. rewrite !(law_refl text_cmp lawful_text). reflexivity.
Qed.

(** The rows of one group, as line 122 orders them, are the group ordered by
    [(ts, requestId)]. *)
Lemma group_of_sorted (u w : text) (evs : list event) :
  filter (in_group u w) (sort_by by_user_wallet_ts_rid evs)
  = sort_by by_ts_rid (filter (in_group u w) evs).
Proof.
  rewrite (filter_sort_by _ _ lawful_by_user_wallet_ts_rid).
  apply sort_by_ext. intros x y Hx Hy. apply filter_In in Hx, Hy.
  unfold le_of. rewrite (by_user_wallet_in_group u w x y); tauto.
Qed.

Lemma analyze_frame (td : list (option text) -> list (option Z)) (recs : list record)
    (out : analysis) :
  analyze td recs = Ok out ->
  let evs := events_from 0 recs (td (map start_ts recs)) in
  let sorted := sort_by by_user_wallet_ts_rid evs in
  enrich td recs = Ok evs
  /\ NoDup (map idx sorted)
  /\ df out = rows_of (fun e => series_get (idx e) (groupby_apply z_anomalies sorted))
                      sorted (shift_next_old sorted)
  /\ per_user out
     = map (fun k => summarize k (filter (fun r => key_is userId k (ev r)) (df out)))
           (group_keys userId sorted).
Proof.
  intros H. apply analyze_ok_inv in H.
  destruct H as (Hn & Ho & Ha & Hu & Hw & ->). cbv zeta. split; [|split; [|split]].
  - unfold enrich, require. rewrite Hn, Ho, Ha. reflexivity.
  - apply (Permutation_NoDup (l := List.seq 0 (List.length recs))).
    + rewrite <- (events_from_idx 0 recs (td (map start_ts recs))).
      apply Permutation_map, Permutation_sym, sort_by_perm.
    + apply seq_NoDup.
  - cbn [df]. unfold next_old_column, delta_anomaly_column. rewrite Hu, Hw. reflexivity.
  - cbn [per_user df]. unfold per_user_of. rewrite Hu, rows_of_ev. reflexivity.
Qed.

(** C3: in every row of the frame, [flow_break] is what the specification
    asks: with the rows grouped by [(userId, walletId)] and each group ordered
    by [(ts, requestId)], unknown timestamps last, it is true exactly when
    this row's [newBalance] and the [oldBalance] of the next row of its group
    are both known and differ by more than 1e-6; it is false for a row
    without a [userId] or without a [walletId]. *)
Theorem flow_break_next_in_group (td : list (option text) -> list (option Z))
    (recs : list record) (out : analysis) (r : row) :
  analyze td recs = Ok out -> In r (df out) ->
  (exists evs, enrich td recs = Ok evs /\ flow_break r = flow_break_spec evs (ev r))
  /\ (userId (ev r) = None \/ walletId (ev r) = None -> flow_break r = false).
Proof.
  intros Hok Hr. destruct (analyze_frame td recs out Hok) as (Hen & Hnd & Hdf & _).
  set (evs := events_from 0 recs (td (map start_ts recs))) in *.
  set (sorted := sort_by by_user_wallet_ts_rid evs) in *.
  rewrite Hdf in Hr. apply rows_of_split in Hr.
  destruct Hr as (l1 & l2 & Hs & Hnext & Hfb & _).
  assert (Hnone : userId (ev r) = None \/ walletId (ev r) = None -> flow_break r = false).
  { intros H. rewrite Hfb, Hnext.
    rewrite (find_ext _ (fun _ => false) l2 (fun x => same_group_none (ev r) x H)).
    replace (find (fun _ => false) l2) with (@None event)
      by (clear; induction l2; simpl; auto).
    unfold flow_break_of. rewrite andb_false_r. reflexivity. }
  split; [|exact Hnone].
  exists evs. split; [exact Hen|]. unfold flow_break_spec.
  destruct (userId (ev r)) as [u|] eqn:Hu; [|apply Hnone; auto].
  destruct (walletId (ev r)) as [w|] eqn:Hw; [|apply Hnone; auto].
  rewrite <- group_of_sorted. fold evs. fold sorted. rewrite Hs, filter_app.
  cbn [filter].
  assert (Hg : in_group u w (ev r) = true).
  { unfold in_group. apply andb_true_intro. split; apply key_is_eq; assumption. }
  rewrite Hg, next_after_split.
  - rewrite Hfb, Hnext, (find_ext _ _ l2 (fun x => same_group_in_group (ev r) x u w Hu Hw)).
    rewrite find_filter. destruct (hd_error (filter (in_group u w) l2)); [reflexivity|].
    unfold flow_break_of. rewrite andb_false_r. reflexivity.
  - reflexivity.
  - rewrite Hs, map_app in Hnd. cbn [map] in Hnd. apply NoDup_app_head in Hnd.
    intros Hin. apply Hnd. apply in_map_iff in Hin. destruct Hin as (x & Hx & Hin).
    apply filter_In in Hin. apply in_map_iff. exists x. tauto.
Qed.

Lemma flow_break_next_in_group_witness :
  exists evs,
    enrich sample_clock sample_records = Ok evs
    /\ flow_break (sample_row 10) = flow_break_spec evs (ev (sample_row 10)).
Proof.
  exact (proj1 (flow_break_next_in_group sample_clock sample_records sample_analysis
                  (sample_row 10) sample_analysis_ok (sample_row_In 10 ltac:(lia)))).
Defined.

Example sample_flow_break : map flow_break (df sample_analysis)
  = [false; false; false; false; false; false; false; false; false; false;
     true; false; false; false; false].
Proof. vm_compute. reflexivity. Qed.

(** ** Outliers *)

Lemma series_get_app (i : nat) (s1 s2 : series) :
  series_get i (s1 ++ s2)
  = match series_get i s1 with
    | Some b => Some b
    | None => series_get i s2
    end.
Proof.
  unfold series_get. induction s1 as [|[j b] s1 IH]; simpl; [reflexivity|].
  destruct (Nat.eqb j i); [reflexivity | exact IH].
Qed.

Lemma series_get_map_none (i : nat) (f : event -> bool) (sub : list event) :
  ~ In i (map idx sub) -> series_get i (map (fun x => (idx x, f x)) sub) = None.
Proof.
  unfold series_get. induction sub as [|x sub IH]; simpl; intros Hn; [reflexivity|].
  destruct (Nat.eqb (idx x) i) eqn:E.
  - apply Nat.eqb_eq in E. exfalso. apply Hn. left; exact E.
  - apply IH. intros H. apply Hn. right; exact H.
Qed.

Lemma NoDup_map_inj {A B : Type} (f : A -> B) (l : list A) (x y : A) :
  NoDup (map f l) -> In x l -> In y l -> f x = f y -> x = y.
Proof.
  induction l as [|a l IH]; simpl; intros Hnd Hx Hy Hf; [contradiction|].
  inversion Hnd as [|? ? Hn Hnd']; subst.
  destruct Hx as [->|Hx], Hy as [->|Hy]; auto.
  - exfalso. apply Hn. rewrite Hf. apply in_map. exact Hy.
  - exfalso. apply Hn. rewrite <- Hf. apply in_map. exact Hx.
Qed.

Lemma series_get_map_some (f : event -> bool) (sub : list event) (e : event) :
  NoDup (map idx sub) -> In e sub ->
  series_get (idx e) (map (fun x => (idx x, f x)) sub) = Some (f e).
Proof.
  unfold series_get. induction sub as [|x sub IH]; simpl; intros Hnd Hin; [contradiction|].
  inversion Hnd as [|? ? Hn Hnd']; subst.
  destruct (Nat.eqb (idx x) (idx e)) eqn:E.
  - apply Nat.eqb_eq in E. destruct Hin as [->|Hin]; [reflexivity|].
    exfalso. apply Hn. rewrite E. apply in_map. exact Hin.
  - destruct Hin as [->|Hin]; [rewrite Nat.eqb_refl in E; discriminate|].
    apply IH; assumption.
Qed.


Lemma z_anomalies_map (sub : list event) :
  z_anomalies sub = map (fun e => (idx e, z_flag sub e)) sub.
Proof.
  unfold z_anomalies, z_flag, all_false.
  destruct (List.length (filter notna (map delta sub)) <? 5)%nat; [reflexivity|].
  destruct (PrimFloat.eqb (std (filter notna (map delta sub))) 0); reflexivity.
Qed.

Lemma dedup_In (x : text) (l : list text) : In x (dedup l) <-> In x l.
Proof.
  induction l as [|y l IH]; simpl; [tauto|]. rewrite filter_In, IH.
  destruct (text_eqb y x) eqn:E.
  - apply text_eqb_eq in E. subst. simpl. tauto.
  - simpl. split; [tauto|]. intros [->|H]; [rewrite text_eqb_refl in E; discriminate|].
    right. auto.
Qed.

Lemma group_keys_In (key : event -> option text) (l : list event) (k : text) :
  In k (group_keys key l) <-> exists e, In e l /\ key e = Some k.
Proof.
  unfold group_keys. rewrite sort_by_In, dedup_In, in_flat_map. split.
  - intros (e & He & Hk). exists e. split; [exact He|].
    destruct (key e); [destruct Hk as [->|[]]; reflexivity | destruct Hk].
  - intros (e & He & Hk). exists e. split; [exact He|]. rewrite Hk. left; reflexivity.
Qed.

Lemma series_get_groups (F : text -> series) (i : nat) (u : text) (b : bool) (ks : list text) :
  In u ks -> series_get i (F u) = Some b ->
  (forall k, In k ks -> k <> u -> series_get i (F k) = None) ->
  series_get i (flat_map F ks) = Some b.
Proof.
  induction ks as [|k ks IH]; simpl; intros Hin Hu Hother; [contradiction|].
  rewrite series_get_app. destruct (text_eqb k u) eqn:E.
  - apply text_eqb_eq in E. subst k. rewrite Hu. reflexivity.
  - assert (Hne : k <> u) by (intros ->; rewrite text_eqb_refl in E; discriminate).
    rewrite (Hother k (or_introl eq_refl) Hne). apply IH; auto.
    destruct Hin as [->|Hin]; [contradiction | exact Hin].
Qed.

Lemma series_get_no_group (F : text -> series) (i : nat) (ks : list text) :
  (forall k, In k ks -> series_get i (F k) = None) ->
  series_get i (flat_map F ks) = None.
Proof.
  induction ks as [|k ks IH]; simpl; intros H; [reflexivity|].
  rewrite series_get_app, (H k (or_introl eq_refl)). apply IH. auto.
Qed.

Lemma group_idx_other (l : list event) (e : event) (k : text) :
  NoDup (map idx l) -> In e l -> userId e <> Some k ->
  ~ In (idx e) (map idx (group userId k l)).
Proof.
  intros Hnd He Hk Hin. apply in_map_iff in Hin. destruct Hin as (x & Hi & Hx).
  apply filter_In in Hx. destruct Hx as [Hx Hkx]. apply key_is_eq in Hkx.
  assert (x = e) by (apply (NoDup_map_inj idx l); assumption). subst x. contradiction.
Qed.

(** A group keeps the distinct labels of the frame. *)
Lemma group_idx_NoDup (k : text) (l : list event) :
  NoDup (map idx l) -> NoDup (map idx (group userId k l)).
Proof.
  unfold group. induction l as [|e l IH]; intros Hnd; [constructor|].
  cbn [map] in Hnd. apply NoDup_cons_iff in Hnd. destruct Hnd as [Hnew Hnd].
  cbn [filter]. destruct (key_is userId k e); [|exact (IH Hnd)].
  cbn [map]. apply NoDup_cons; [|exact (IH Hnd)].
  intros Hin. apply Hnew. apply in_map_iff in Hin. destruct Hin as (x & Hx & Hin).
  apply filter_In in Hin. apply in_map_iff. exists x. tauto.
Qed.

(** What the grouped [apply] assigns to a row of the sorted frame. *)
Lemma groupby_apply_get (l : list event) (e : event) :
  NoDup (map idx l) -> In e l ->
  series_get (idx e) (groupby_apply z_anomalies l)
  = match userId e with
    | Some u => Some (z_flag (group userId u l) e)
    | None => None
    end.
Proof.
  intros Hnd He. unfold groupby_apply. destruct (userId e) as [u|] eqn:Hu.
  - apply (series_get_groups (fun k => z_anomalies (group userId k l)) (idx e) u).
    + apply group_keys_In. exists e. auto.
    + rewrite z_anomalies_map. apply series_get_map_some.
      * apply group_idx_NoDup. exact Hnd.
      * apply filter_In. split; [exact He|]. apply key_is_eq. exact Hu.
    + intros k _ Hne. rewrite z_anomalies_map. apply series_get_map_none.
      apply group_idx_other; try assumption. rewrite Hu. congruence.
  - apply (series_get_no_group (fun k => z_anomalies (group userId k l))).
    intros k _. rewrite z_anomalies_map.
    apply series_get_map_none. apply group_idx_other; try assumption.
    rewrite Hu. discriminate.
Qed.

Open Scope float_scope.



Example sample_delta_anomaly : map delta_anomaly (df sample_analysis)
  = [false; false; false; false; false; false; false; false; false; false;
     false; true; false; false; false].
Proof. vm_compute. reflexivity. Qed.

Close Scope float_scope.

(** ** The per-user summary *)

Lemma map_filter_comm {A B : Type} (f : A -> B) (p : B -> bool) (l : list A) :
  map f (filter (fun x => p (f x)) l) = filter p (map f l).
Proof.
  induction l as [|x l IH]; simpl; [reflexivity|].
  destruct (p (f x)); simpl; rewrite IH; reflexivity.
Qed.

Lemma by_user_wallet_same_user (u : text) (x y : event) :
  key_is userId u x = true -> key_is userId u y = true ->
  by_user_wallet_ts_rid x y = by_wallet_ts_rid x y.
Proof.
  intros Hx Hy. apply key_is_eq in Hx, Hy. unfold by_user_wallet_ts_rid.
  rewrite Hx, Hy. cbn [opt_cmp]. rewrite (law_refl text_cmp lawful_text). reflexivity.
Qed.

(** The rows of one user, as line 122 orders them, are the user's rows
    ordered by [(walletId, ts, requestId)]. *)
Lemma user_rows_of_sorted (u : text) (evs : list event) :
  filter (key_is userId u) (sort_by by_user_wallet_ts_rid evs)
  = sort_by by_wallet_ts_rid (filter (key_is userId u) evs).
Proof.
  rewrite (filter_sort_by _ _ lawful_by_user_wallet_ts_rid).
  apply sort_by_ext. intros x y Hx Hy. apply filter_In in Hx, Hy.
  unfold le_of. rewrite (by_user_wallet_same_user u x y); tauto.
Qed.

Open Scope float_scope.




Example sample_last_balances :
  map (fun s => (user s, last_balance s, final_overdraft s)) (per_user sample_analysis)
  = [(T "u1", 1012, false); (T "u2", 10, false); (T "u3", 15, false)].
Proof. vm_compute. reflexivity. Qed.

Close Scope float_scope.

(** ** What every record holds *)

Lemma capture_ts_nonempty (s : text) :
  recognised start_re s = true -> capture_ts s <> [].
Proof.
  intros Hs. unfold capture_ts. destruct (contains "Z"%char s).
  - intros H. apply app_eq_nil in H. destruct H as [_ H]. discriminate H.
  - pose proof (marker_line_long "START" s Hs) as Hl.
    destruct s as [|c s]; [simpl in Hl; lia | discriminate].
Qed.

Lemma blocks_wf (ls : list text) :
  Forall (fun b => List.length (block_id b) = 36
                   /\ forallb hexdash (block_id b) = true
                   /\ block_ts b <> []) (blocks ls).
Proof.
  induction ls as [|l ls IH]; cbn [blocks]; [constructor|].
  destruct (match_ start_re l) as [[rid|]|] eqn:Hm; try exact IH.
  constructor; [|exact IH]. cbn [block_id block_ts].
  destruct (marker_capture "START" l (Some rid) Hm) as (rid' & [= <-] & Hl & Hc).
  split; [exact Hl|]. split; [exact Hc|]. apply capture_ts_nonempty.
  apply recognised_match. eauto.
Qed.

(** X3: every record [parse_logs] returns has a [requestId] of exactly 36
    characters, each a digit, a letter a to f or a hyphen, a [start_ts] that
    is a non-empty text (never [None]), and as its [file] one of the files
    read. *)
Theorem parse_logs_records (gz_files : list (text * list text)) :
  Forall (fun r => List.length (requestId r) = 36
                   /\ forallb hexdash (requestId r) = true
                   /\ (exists t, start_ts r = Some t /\ t <> [])
                   /\ In (file r) (map fst gz_files))
         (parse_logs gz_files).
Proof.
  unfold parse_logs. rewrite (parse_logs_from gz_files []). cbn [app].
  apply Forall_forall. intros r Hr. apply in_flat_map in Hr.
  destruct Hr as ([gz lines] & Hf & Hr). cbn [fst snd] in Hr.
  apply in_map_iff in Hr. destruct Hr as (b & <- & Hb).
  pose proof (blocks_wf (map strip lines)) as Hwf.
  rewrite Forall_forall in Hwf. destruct (Hwf b Hb) as (Hl & Hc & Ht).
  unfold record_of_block. cbn [requestId start_ts file _extract_record].
  repeat split; try assumption.
  - exists (block_ts b). auto.
  - apply in_map_iff. exists (gz, lines). auto.
Qed.

(** ** Field extraction *)

Lemma search_leftmost (r : regex) (s : text) (g : capture) :
  search r s = Some g
  <-> exists pre rest,
        s = pre ++ rest /\ match_ r rest = Some g
        /\ forall p1 p2, pre = p1 ++ p2 -> p2 <> [] -> match_ r (p2 ++ rest) = None.
Proof.
  revert g. induction s as [|c s IH]; intros g; cbn [search].
  - destruct (match_ r []) as [g0|] eqn:E.
    + split.
      * intros [= <-]. exists [], []. split; [reflexivity|]. split; [exact E|].
        intros p1 p2 H Hne. destruct p1; destruct p2; try discriminate. contradiction.
      * intros (pre & rest & Hs & Hm & _). symmetry in Hs.
        apply app_eq_nil in Hs. destruct Hs as [-> ->]. congruence.
    + split; [discriminate|]. intros (pre & rest & Hs & Hm & _). symmetry in Hs.
      apply app_eq_nil in Hs. destruct Hs as [-> ->]. congruence.
  - destruct (match_ r (c :: s)) as [g0|] eqn:E.
    + split.
      * intros [= <-]. exists [], (c :: s). split; [reflexivity|]. split; [exact E|].
        intros p1 p2 H Hne. destruct p1; destruct p2; try discriminate. contradiction.
      * intros (pre & rest & Hs & Hm & Hearly). destruct pre as [|c' pre].
        -- simpl in Hs. subst rest. congruence.
        -- rewrite Hs in E.
           rewrite (Hearly [] (c' :: pre) eq_refl ltac:(discriminate)) in E.
           discriminate E.
    + rewrite IH. split.
      * intros (pre & rest & -> & Hm & Hearly). exists (c :: pre), rest.
        split; [reflexivity|]. split; [exact Hm|]. intros p1 p2 H Hne.
        destruct p1 as [|c1 p1].
        -- simpl in H. subst p2. exact E.
        -- injection H as _ H. apply (Hearly p1 p2 H Hne).
      * intros (pre & rest & Hs & Hm & Hearly). destruct pre as [|c' pre].
        -- simpl in Hs. subst rest. congruence.
        -- injection Hs as <- ->. exists pre, rest. split; [reflexivity|].
           split; [exact Hm|]. intros p1 p2 H Hne.
           apply (Hearly (c :: p1) p2); [rewrite H; reflexivity | exact Hne].
Qed.

Lemma search_none (r : regex) (s : text) :
  search r s = None <-> forall pre rest, s = pre ++ rest -> match_ r rest = None.
Proof.
  induction s as [|c s IH]; cbn [search].
  - destruct (match_ r []) as [g0|] eqn:E.
    + split; [discriminate|]. intros H. rewrite (H [] [] eq_refl) in E. discriminate.
    + split; [|reflexivity]. intros _ pre rest Hs. symmetry in Hs.
      apply app_eq_nil in Hs. destruct Hs as [-> ->]. exact E.
  - destruct (match_ r (c :: s)) as [g0|] eqn:E.
    + split; [discriminate|]. intros H. rewrite (H [] (c :: s) eq_refl) in E. discriminate.
    + rewrite IH. split.
      * intros H pre rest Hs. destruct pre as [|c' pre].
        -- simpl in Hs. subst rest. exact E.
        -- injection Hs as <- ->. apply (H pre rest eq_refl).
      * intros H pre rest ->. apply (H (c :: pre) rest eq_refl).
Qed.

Lemma assoc_In_key (k : string) (kvs : list (string * text)) :
  ~ In k (map fst kvs) -> assoc k kvs = None.
Proof.
  induction kvs as [|[k' v] kvs IH]; simpl; intros H; [reflexivity|].
  destruct (String.eqb k k') eqn:E.
  - apply String.eqb_eq in E. exfalso. apply H. left. symmetry. exact E.
  - apply IH. intros Hin. apply H. right. exact Hin.
Qed.

Lemma extracted_keys_incl (txt rid gz : text) (t : option text)
    (patterns : list (string * regex)) (k : string) :
  In k (map fst (extracted (_extract_record txt rid gz t patterns))) ->
  In k (map fst patterns).
Proof.
  cbn [extracted _extract_record]. induction patterns as [|[k' r'] ps IH]; simpl; [tauto|].
  rewrite map_app, in_app_iff. intros [H|H]; [|right; apply IH; exact H].
  destruct (search r' txt) as [[v|]|]; simpl in H; try contradiction.
  destruct H as [H|[]]. left. exact H.
Qed.

Lemma extracted_keys_NoDup (txt rid gz : text) (t : option text)
    (patterns : list (string * regex)) :
  NoDup (map fst patterns) ->
  NoDup (map fst (extracted (_extract_record txt rid gz t patterns))).
Proof.
  cbn [extracted _extract_record]. induction patterns as [|[k' r'] ps IH]; simpl;
    intros Hnd; [constructor|].
  inversion Hnd as [|? ? Hn Hnd']; subst. rewrite map_app.
  destruct (search r' txt) as [[v|]|]; simpl; try (apply IH; exact Hnd').
  constructor; [|apply IH; exact Hnd'].
  intros Hin. apply Hn. apply (extracted_keys_incl txt rid gz t ps k'). exact Hin.
Qed.

Lemma extract_get (txt rid gz : text) (t : option text) (patterns : list (string * regex))
    (k : string) (r : regex) :
  NoDup (map fst patterns) -> In (k, r) patterns ->
  rec_get k (_extract_record txt rid gz t patterns)
  = match search r txt with
    | Some (Some v) => Some v
    | _ => None
    end.
Proof.
  unfold rec_get. cbn [extracted _extract_record].
  induction patterns as [|[k' r'] ps IH]; simpl; intros Hnd Hin; [contradiction|].
  inversion Hnd as [|? ? Hn Hnd']; subst. destruct Hin as [[= -> ->]|Hin].
  - destruct (search r txt) as [[v|]|]; simpl.
    + rewrite String.eqb_refl. reflexivity.
    + apply assoc_In_key. intros H. apply Hn.
      apply (extracted_keys_incl txt rid gz t ps k). exact H.
    + apply assoc_In_key. intros H. apply Hn.
      apply (extracted_keys_incl txt rid gz t ps k). exact H.
  - assert (Hne : String.eqb k k' = false).
    { destruct (String.eqb k k') eqn:E; [|reflexivity]. apply String.eqb_eq in E.
      subst k'. exfalso. apply Hn. apply in_map_iff. exists (k, r). auto. }
    rewrite assoc_app_none.
    + apply IH; assumption.
    + destruct (search r' txt) as [[v|]|]; simpl; [rewrite Hne|..]; reflexivity.
Qed.

Lemma fields_patterns_NoDup : NoDup (map fst fields_patterns).
Proof.
  cbn. repeat (constructor; [intros H; repeat (destruct H as [H|H]; [discriminate H|]);
                             exact H|]).
  constructor.
Qed.

(** X4: a record holds, for each pattern of [fields_patterns], the capture of
    the leftmost match of that pattern in the block's text, and nothing under
    that key when the pattern matches nowhere; its keys are pattern names,
    each at most once. *)
Theorem extract_record_first_match (txt rid gz : text) (t : option text)
    (k : string) (r : regex) :
  In (k, r) fields_patterns ->
  let rec := _extract_record txt rid gz t fields_patterns in
  (forall v,
      rec_get k rec = Some v
      <-> exists pre rest,
            txt = pre ++ rest /\ match_ r rest = Some (Some v)
            /\ forall p1 p2, pre = p1 ++ p2 -> p2 <> [] -> match_ r (p2 ++ rest) = None)
  /\ ((forall pre rest, txt = pre ++ rest -> match_ r rest = None) -> rec_get k rec = None)
  /\ NoDup (map fst (extracted rec))
  /\ incl (map fst (extracted rec)) (map fst fields_patterns).
Proof.
  intros Hin. cbv zeta.
  rewrite (extract_get txt rid gz t fields_patterns k r fields_patterns_NoDup Hin).
  split; [|split; [|split]].
  - intros v. rewrite <- search_leftmost.
    destruct (search r txt) as [[v'|]|]; split; congruence.
  - intros H. apply search_none in H. rewrite H. reflexivity.
  - apply extracted_keys_NoDup, fields_patterns_NoDup.
  - intros k' Hk'. apply (extracted_keys_incl txt rid gz t fields_patterns k' Hk').
Qed.

Lemma extract_record_first_match_witness :
  rec_get "amount" (_extract_record (T "amount: 5, then amount: 7") [] [] None fields_patterns)
  = Some (T "5").
Proof.
  refine (proj2 (proj1 (extract_record_first_match (T "amount: 5, then amount: 7") [] [] None
                          "amount" (num_field "amount") _) (T "5")) _).
  - unfold fields_patterns. do 4 right. left. reflexivity.
  - exists [], (T "amount: 5, then amount: 7"). split; [reflexivity|].
    split; [vm_compute; reflexivity|]. intros p1 p2 H Hne. symmetry in H.
    apply app_eq_nil in H. destruct H as [_ H]. contradiction.
Defined.

(** ** Numeric captures *)

Lemma take_drop_while (p : cls) (s : text) : take_while p s ++ drop_while p s = s.
Proof.
  induction s as [|c s IH]; simpl; [reflexivity|].
  destruct (p c); simpl; [rewrite IH|]; reflexivity.
Qed.

Lemma take_while_all (p : cls) (s : text) : forallb p (take_while p s) = true.
Proof.
  induction s as [|c s IH]; simpl; [reflexivity|].
  destruct (p c) eqn:E; simpl; [rewrite E, IH|]; reflexivity.
Qed.

Lemma drop_while_stop (p : cls) (s : text) : starts_with p (drop_while p s) = false.
Proof.
  induction s as [|c s IH]; simpl; [reflexivity|].
  destruct (p c) eqn:E; simpl; [exact IH | exact E].
Qed.

(** A greedy repetition first leaves what follows the longest run; every
    other way of matching leaves a text that begins in the class. *)
Lemma star_rests_head (p : cls) (s : text) :
  exists others,
    star_rests p s = drop_while p s :: others
    /\ Forall (fun t => starts_with p t = true) others.
Proof.
  induction s as [|c s (others & Hs & Ho)]; simpl.
  - exists []. split; [reflexivity | constructor].
  - destruct (p c) eqn:E.
    + exists (others ++ [c :: s]). rewrite Hs. split; [reflexivity|].
      apply Forall_app. split; [exact Ho|]. constructor; [exact E | constructor].
    + exists []. split; [reflexivity | constructor].
Qed.

Lemma plus_rests_head (p : cls) (s : text) :
  plus_rests p s
  = if starts_with p s
    then drop_while p s :: tl (plus_rests p s)
    else [].
Proof.
  destruct s as [|c s]; simpl; [reflexivity|]. destruct (p c); [|reflexivity].
  destruct (star_rests_head p s) as (others & -> & _). reflexivity.
Qed.

Lemma space_not_numch (c : ascii) : isspace c = true -> numch c = false.
Proof.
  destruct c as [[] [] [] [] [] [] [] []]; vm_compute; congruence.
Qed.

Lemma firstn_take_while (p : cls) (s : text) :
  firstn (List.length s - List.length (drop_while p s)) s = take_while p s.
Proof.
  rewrite <- (take_drop_while p s) at 1 3.
  rewrite length_app, Nat.add_sub, firstn_app, Nat.sub_diag, firstn_all.
  simpl. apply app_nil_r.
Qed.

Lemma flat_map_all_nil {A B : Type} (f : A -> list B) (l : list A) :
  (forall x, In x l -> f x = []) -> flat_map f l = [].
Proof.
  induction l as [|x l IH]; intros H; simpl; [reflexivity|].
  rewrite (H x (or_introl eq_refl)), IH; [reflexivity|].
  intros y Hy. apply H. right; exact Hy.
Qed.

(** The match of a numeric pattern, computed: after the name and the colon,
    all the whitespace, then the longest run of digits, dots and hyphens,
    which must not be empty. *)
Lemma num_field_match (name : string) (s : text) :
  match_ (num_field name) s
  = match lit_rest Ascii.eqb (T name ++ T ":") s with
    | Some s0 =>
        let v := take_while numch (drop_while isspace s0) in
        if nonempty v then Some (Some v) else None
    | None => None
    end.
Proof.
  unfold match_, num_field. cbn [Re.seq run].
  destruct (lit_rest Ascii.eqb (T name ++ T ":") s) as [s0|]; [|reflexivity].
  cbn [flat_map fst snd]. rewrite app_nil_r.
  destruct (star_rests_head isspace s0) as (others & -> & Ho).
  cbn [map flat_map fst snd].
  rewrite (flat_map_all_nil _ (map (fun s' => (s', @None text)) others)).
  2:{ intros [t g] Ht. apply in_map_iff in Ht. destruct Ht as (t' & [= <- <-] & Ht).
      rewrite Forall_forall in Ho. specialize (Ho t' Ht). cbn [fst snd].
      destruct t' as [|c t']; [discriminate Ho|]. simpl in Ho.
      unfold plus_rests. rewrite (space_not_numch c Ho). reflexivity. }
  rewrite app_nil_r. set (h := drop_while isspace s0).
  rewrite (plus_rests_head numch h). cbv zeta.
  destruct h as [|c h'] eqn:Hh; [reflexivity|]. cbn [starts_with take_while].
  destruct (numch c) eqn:Hc; [|reflexivity].
  cbn [map fst snd nonempty].
  rewrite (firstn_take_while numch (c :: h')). cbn [take_while]. rewrite Hc.
  reflexivity.
Qed.

Lemma numeric_field_pattern (name : string) :
  In name numeric_fields -> In (name, num_field name) fields_patterns.
Proof.
  unfold numeric_fields, fields_patterns. intros H.
  repeat (destruct H as [<-|H]; [simpl; tauto|]). contradiction.
Qed.

(** X5: a numeric field of a record ([paymentBalance], [oldBalance],
    [newBalance], [amount]) is never empty and holds digits, dots and hyphens
    only; it is the longest such run that follows, in the block's text, the
    field's name, a colon and any whitespace, line breaks included. *)
Theorem numeric_capture (txt rid gz : text) (t : option text) (name : string) (v : text) :
  In name numeric_fields ->
  rec_get name (_extract_record txt rid gz t fields_patterns) = Some v ->
  v <> [] /\ forallb numch v = true
  /\ exists pre ws rest,
       txt = pre ++ (T name ++ T ":") ++ ws ++ v ++ rest
       /\ forallb isspace ws = true
       /\ starts_with numch rest = false.
Proof.
  intros Hname Hget. apply numeric_field_pattern in Hname.
  rewrite (extract_get txt rid gz t fields_patterns name (num_field name)
             fields_patterns_NoDup Hname) in Hget.
  destruct (search (num_field name) txt) as [[v'|]|] eqn:Hs; try discriminate.
  injection Hget as ->. apply search_leftmost in Hs.
  destruct Hs as (pre & rest0 & -> & Hm & _). rewrite num_field_match in Hm.
  destruct (lit_rest Ascii.eqb (T name ++ T ":") rest0) as [s0|] eqn:Hl; [|discriminate].
  apply lit_rest_eqb_spec in Hl. subst rest0. cbv zeta in Hm.
  destruct (take_while numch (drop_while isspace s0)) as [|c v0] eqn:Hv; [discriminate|].
  injection Hm as <-. split; [discriminate|]. split.
  - rewrite <- Hv. apply take_while_all.
  - exists pre, (take_while isspace s0), (drop_while numch (drop_while isspace s0)).
    split; [|split].
    + rewrite <- Hv, take_drop_while, take_drop_while. reflexivity.
    + apply take_while_all.
    + apply drop_while_stop.
Qed.

Lemma numeric_capture_witness :
  T "-12.5" <> [] /\ forallb numch (T "-12.5") = true
  /\ exists pre ws rest,
       app (T "INFO amount:") (app [newline] (T "  -12.5 EUR"))
       = pre ++ (T "amount" ++ T ":") ++ ws ++ T "-12.5" ++ rest
       /\ forallb isspace ws = true
       /\ starts_with numch rest = false.
Proof.
  apply (numeric_capture (app (T "INFO amount:") (app [newline] (T "  -12.5 EUR")))
           [] [] None "amount" (T "-12.5")).
  - unfold numeric_fields. simpl. tauto.
  - vm_compute. reflexivity.
Defined.

(** ** The frame as a whole *)

Lemma events_from_src (i : nat) (recs : list record) (tss : list (option Z)) :
  map src (events_from i recs tss) = recs.
Proof.
  revert i tss; induction recs as [|r recs IH]; intros i tss; simpl; [reflexivity|].
  rewrite IH. reflexivity.
Qed.

Lemma events_from_nth (i : nat) (recs : list record) (tss : list (option Z)) (e : event) :
  In e (events_from i recs tss) -> nth_error recs (idx e - i) = Some (src e) /\ i <= idx e.
Proof.
  revert i tss; induction recs as [|r recs IH]; intros i tss; simpl; [intros []|].
  intros [<-|H].
  - cbn [idx src event_of]. rewrite Nat.sub_diag. auto.
  - destruct (IH _ _ H) as [Hn Hle]. split; [|lia].
    replace (idx e - i) with (S (idx e - S i)) by lia. exact Hn.
Qed.

Lemma frame_sources (td : list (option text) -> list (option Z)) (recs : list record)
    (out : analysis) :
  analyze td recs = Ok out -> Permutation (map (fun r => src (ev r)) (df out)) recs.
Proof.
  intros Hok. destruct (analyze_frame td recs out Hok) as (_ & _ & Hdf & _).
  rewrite <- (map_map ev src), Hdf, rows_of_ev.
  apply (Permutation_trans (Permutation_map src (sort_by_perm _ _ _))).
  rewrite events_from_src. apply Permutation_refl.
Qed.

(** X6: [analyze] neither drops nor repeats a record: the frame it returns
    has one row for each record, labelled with the record's position and
    computed from that record, and its rows are in the order of the keys
    [(userId, walletId, ts, requestId)], a missing key after every present
    one. *)
Theorem analyze_frame_sorted (td : list (option text) -> list (option Z))
    (recs : list record) (out : analysis) :
  analyze td recs = Ok out ->
  List.length (df out) = List.length recs
  /\ Permutation (map (fun r => idx (ev r)) (df out)) (List.seq 0 (List.length recs))
  /\ Permutation (map (fun r => src (ev r)) (df out)) recs
  /\ (forall r, In r (df out) -> nth_error recs (idx (ev r)) = Some (src (ev r)))
  /\ StronglySorted (le_by by_user_wallet_ts_rid) (map ev (df out)).
Proof.
  intros Hok. destruct (analyze_frame td recs out Hok) as (_ & _ & Hdf & _).
  set (evs := events_from 0 recs (td (map start_ts recs))) in *.
  assert (Hev : map ev (df out) = sort_by by_user_wallet_ts_rid evs)
    by (rewrite Hdf; apply rows_of_ev).
  assert (Hperm : Permutation (map ev (df out)) evs)
    by (rewrite Hev; apply sort_by_perm).
  split; [|split; [|split; [|split]]].
  - rewrite <- (length_map ev (df out)), (Permutation_length Hperm).
    rewrite <- (length_map src evs). unfold evs. rewrite events_from_src. reflexivity.
  - rewrite <- (map_map ev idx), <- (events_from_idx 0 recs (td (map start_ts recs))).
    apply Permutation_map. exact Hperm.
  - rewrite <- (map_map ev src).
    apply (Permutation_trans (Permutation_map src Hperm)).
    unfold evs. rewrite events_from_src. apply Permutation_refl.
  - intros r Hr. apply (in_map ev) in Hr. apply (Permutation_in _ Hperm) in Hr.
    apply events_from_nth in Hr. rewrite Nat.sub_0_r in Hr. tauto.
  - rewrite Hev. apply sort_by_sorted. apply lawful_by_user_wallet_ts_rid.
Qed.

Lemma analyze_frame_sorted_witness :
  List.length (df sample_analysis) = List.length sample_records
  /\ Permutation (map (fun r => idx (ev r)) (df sample_analysis))
                 (List.seq 0 (List.length sample_records))
  /\ Permutation (map (fun r => src (ev r)) (df sample_analysis)) sample_records
  /\ (forall r, In r (df sample_analysis) ->
        nth_error sample_records (idx (ev r)) = Some (src (ev r)))
  /\ StronglySorted (le_by by_user_wallet_ts_rid) (map ev (df sample_analysis)).
Proof.
  exact (analyze_frame_sorted sample_clock sample_records sample_analysis sample_analysis_ok).
Defined.

Open Scope float_scope.

(** X7: in every row of the frame, an unknown [newBalance] gives no overdraft
    and no crossing; a crossing is always an overdraft; and with an unknown
    [oldBalance], as when the block logged none, the row counts as a crossing
    exactly when its [newBalance] is negative. *)
Theorem overdraft_flags_unknown (td : list (option text) -> list (option Z))
    (recs : list record) (out : analysis) (r : row) :
  analyze td recs = Ok out -> In r (df out) ->
  let e := ev r in
  (overdraft_cross e = true <-> (newBalance e <? 0) = true /\ (oldBalance e <? 0) = false)
  /\ (overdraft_cross e = true -> overdraft_after e = true)
  /\ (is_nan (newBalance e) = true -> overdraft_after e = false /\ overdraft_cross e = false)
  /\ (is_nan (oldBalance e) = true ->
      overdraft_before e = false /\ overdraft_cross e = overdraft_after e)
  /\ (rec_get "oldBalance" (src e) = None -> overdraft_cross e = overdraft_after e).
Proof.
  intros Hok Hr. destruct (proj2 (analyze_rows td recs out Hok) r Hr) as (rec & t & _ & He).
  cbv zeta. rewrite He.
  cbn [overdraft_cross overdraft_after overdraft_before newBalance oldBalance src event_of].
  set (old := to_float (rec_get "oldBalance" rec)).
  set (new := to_float (rec_get "newBalance" rec)).
  assert (Hnan : forall x, is_nan x = true -> (x <? 0) = false).
  { intros x Hx. destruct (x <? 0) eqn:E; [|reflexivity].
    apply ltb_not_nan in E. destruct E as [E _]. congruence. }
  split; [|split; [|split; [|split]]].
  - rewrite andb_true_iff, negb_true_iff. tauto.
  - intros H. apply andb_prop in H. tauto.
  - intros H. rewrite (Hnan new H), andb_false_r. auto.
  - intros H. rewrite (Hnan old H). auto.
  - intros H. subst old. rewrite H. cbn [to_float].
    rewrite (Hnan nan eq_refl). reflexivity.
Qed.

Lemma overdraft_flags_unknown_witness :
  overdraft_cross (ev (sample_row 12)) = true
  <-> (newBalance (ev (sample_row 12)) <? 0) = true
      /\ (oldBalance (ev (sample_row 12)) <? 0) = false.
Proof.
  exact (proj1 (overdraft_flags_unknown sample_clock sample_records sample_analysis
                  (sample_row 12) sample_analysis_ok (sample_row_In 12 ltac:(lia)))).
Defined.

Close Scope float_scope.

(** ** The users of the summary *)

Lemma dedup_NoDup (l : list text) : NoDup (dedup l).
Proof.
  induction l as [|x l IH]; simpl; constructor.
  - intros H. apply filter_In in H. destruct H as [_ H].
    rewrite text_eqb_refl in H. discriminate.
  - apply NoDup_filter. exact IH.
Qed.

Lemma group_keys_NoDup (key : event -> option text) (l : list event) :
  NoDup (group_keys key l).
Proof.
  unfold group_keys. apply (Permutation_NoDup (Permutation_sym (sort_by_perm _ _ _))).
  apply dedup_NoDup.
Qed.

(** A sorted list without repetition is strictly increasing. *)
Lemma sorted_NoDup_strict (l : list text) :
  StronglySorted (le_by text_cmp) l -> NoDup l ->
  StronglySorted (fun a b => text_cmp a b = Lt) l.
Proof.
  induction l as [|x l IH]; intros Hs Hnd; [constructor|].
  inversion Hs as [|? ? Hs' Hx]; subst. inversion Hnd as [|? ? Hn Hnd']; subst.
  constructor; [apply IH; assumption|]. rewrite Forall_forall in *.
  intros y Hy. specialize (Hx y Hy). unfold le_by, le_of in Hx.
  destruct (text_cmp x y) eqn:E; try discriminate; [|reflexivity].
  apply text_cmp_eq in E. subst y. contradiction.
Qed.

Lemma events_from_of_record (i : nat) (recs : list record) (tss : list (option Z))
    (rec : record) :
  In rec recs -> exists e, In e (events_from i recs tss) /\ src e = rec.
Proof.
  intros H. rewrite <- (events_from_src i recs tss) in H.
  apply in_map_iff in H. destruct H as (e & He & Hin). eauto.
Qed.

Lemma per_user_users (td : list (option text) -> list (option Z)) (recs : list record)
    (out : analysis) :
  analyze td recs = Ok out ->
  map user (per_user out) = group_keys userId (map ev (df out)).
Proof.
  intros Hok. destruct (analyze_frame td recs out Hok) as (_ & _ & Hdf & Hpu).
  rewrite Hpu, map_map. cbn [user summarize]. rewrite map_id.
  rewrite Hdf, rows_of_ev. reflexivity.
Qed.

Lemma per_user_user_in (td : list (option text) -> list (option Z)) (recs : list record)
    (out : analysis) (u : text) :
  analyze td recs = Ok out ->
  (In u (map user (per_user out))
   <-> exists rec, In rec recs /\ rec_get "userId" rec = Some u).
Proof.
  intros Hok. pose proof (frame_sources td recs out Hok) as Hsrc.
  rewrite (per_user_users td recs out Hok), group_keys_In. split.
  - intros (e & He & Hk). apply in_map_iff in He. destruct He as (r & <- & Hr).
    exists (src (ev r)). split; [|exact Hk].
    apply (Permutation_in _ Hsrc). apply in_map_iff. exists r. auto.
  - intros (rec & Hrec & Hk). apply (Permutation_in _ (Permutation_sym Hsrc)) in Hrec.
    apply in_map_iff in Hrec. destruct Hrec as (r & <- & Hr).
    exists (ev r). split; [apply in_map; exact Hr | exact Hk].
Qed.

Lemma per_user_users_NoDup (td : list (option text) -> list (option Z))
    (recs : list record) (out : analysis) :
  analyze td recs = Ok out -> NoDup (map user (per_user out)).
Proof.
  intros Hok. rewrite (per_user_users td recs out Hok). apply group_keys_NoDup.
Qed.

Lemma per_user_nonempty (td : list (option text) -> list (option Z))
    (recs : list record) (out : analysis) :
  analyze td recs = Ok out -> per_user out <> [].
Proof.
  intros Hok. pose proof (analyze_ok_inv td recs out Hok) as (_ & _ & _ & Hcol & _).
  unfold has_col in Hcol. apply existsb_exists in Hcol.
  destruct Hcol as (rec & Hrec & Hk).
  destruct (rec_get "userId" rec) as [u|] eqn:E; [|discriminate].
  assert (H : In u (map user (per_user out)))
    by (apply (per_user_user_in td recs out u Hok); eauto).
  intros Hnil. rewrite Hnil in H. exact H.
Qed.

(** X8: whenever [analyze] returns, the summary has exactly one row for each
    [userId] that some record holds and no other row, in strictly increasing
    order of [userId]; it is never empty. *)
Theorem per_user_one_row_per_user (td : list (option text) -> list (option Z))
    (recs : list record) (out : analysis) :
  analyze td recs = Ok out ->
  (forall u, In u (map user (per_user out))
             <-> exists rec, In rec recs /\ rec_get "userId" rec = Some u)
  /\ NoDup (map user (per_user out))
  /\ StronglySorted (fun a b => text_cmp a b = Lt) (map user (per_user out))
  /\ per_user out <> [].
Proof.
  intros Hok. split; [|split; [|split]].
  - intros u. apply (per_user_user_in td recs out u Hok).
  - apply (per_user_users_NoDup td recs out Hok).
  - rewrite (per_user_users td recs out Hok).
    apply sorted_NoDup_strict; [|apply group_keys_NoDup].
    unfold group_keys. apply sort_by_sorted. apply lawful_text.
  - apply (per_user_nonempty td recs out Hok).
Qed.

Lemma per_user_one_row_per_user_witness :
  (forall u, In u (map user (per_user sample_analysis))
             <-> exists rec, In rec sample_records /\ rec_get "userId" rec = Some u)
  /\ NoDup (map user (per_user sample_analysis))
  /\ StronglySorted (fun a b => text_cmp a b = Lt) (map user (per_user sample_analysis))
  /\ per_user sample_analysis <> [].
Proof.
  exact (per_user_one_row_per_user sample_clock sample_records sample_analysis
           sample_analysis_ok).
Defined.

(** ** The counts of the summary *)

Lemma filter_perm_length {A : Type} (p : A -> bool) (l l' : list A) :
  Permutation l l' -> List.length (filter p l) = List.length (filter p l').
Proof.
  intros H. induction H as [|x l l' H IH|x y l|l l' l'' H1 IH1 H2 IH2]; simpl.
  - reflexivity.
  - destruct (p x); simpl; rewrite IH; reflexivity.
  - destruct (p x), (p y); reflexivity.
  - rewrite IH1. exact IH2.
Qed.

Lemma count_true_le {A : Type} (f g : A -> bool) (l : list A) :
  (forall x, In x l -> f x = true -> g x = true) ->
  count_true f l <= count_true g l.
Proof.
  unfold count_true. induction l as [|x l IH]; intros H; simpl; [lia|].
  assert (IH' : List.length (filter f l) <= List.length (filter g l))
    by (apply IH; intros y Hy; apply H; right; exact Hy).
  destruct (f x) eqn:Ef.
  - rewrite (H x (or_introl eq_refl) Ef). simpl. lia.
  - destruct (g x); simpl; lia.
Qed.

Lemma count_true_length {A : Type} (f : A -> bool) (l : list A) :
  count_true f l <= List.length l.
Proof.
  unfold count_true. induction l as [|x l IH]; simpl; [lia|].
  destruct (f x); simpl; lia.
Qed.

(** The rows of a user in the frame are as many as the user's records. *)
Lemma user_rows_count (td : list (option text) -> list (option Z)) (recs : list record)
    (out : analysis) (k : text) :
  analyze td recs = Ok out ->
  List.length (filter (fun r => key_is userId k (ev r)) (df out))
  = List.length (filter (rec_user_is k) recs).
Proof.
  intros Hok. pose proof (frame_sources td recs out Hok) as Hsrc.
  rewrite <- (filter_perm_length (rec_user_is k) _ _ Hsrc).
  rewrite <- (map_filter_comm (fun r => src (ev r)) (rec_user_is k) (df out)).
  rewrite length_map. reflexivity.
Qed.

Lemma list_sum_cons (x : nat) (l : list nat) : list_sum (x :: l) = x + list_sum l.
Proof. reflexivity. Qed.

Lemma no_key_count (k0 : text) (keys : list text) :
  ~ In k0 keys -> list_sum (map (fun k => if text_eqb k0 k then 1 else 0) keys) = 0.
Proof.
  induction keys as [|k keys IH]; intros Hn; [reflexivity|]. rewrite map_cons, list_sum_cons.
  destruct (text_eqb k0 k) eqn:E.
  - apply text_eqb_eq in E. subst k. exfalso. apply Hn. left; reflexivity.
  - apply IH. intros H. apply Hn. right; exact H.
Qed.

Lemma one_key_count (k0 : text) (keys : list text) :
  NoDup keys -> In k0 keys ->
  list_sum (map (fun k => if text_eqb k0 k then 1 else 0) keys) = 1.
Proof.
  induction keys as [|k keys IH]; intros Hnd Hin; [contradiction|].
  inversion Hnd as [|? ? Hn Hnd']; subst. rewrite map_cons, list_sum_cons.
  destruct (text_eqb k0 k) eqn:E.
  - apply text_eqb_eq in E. subst k. rewrite (no_key_count k0 keys Hn). reflexivity.
  - destruct Hin as [->|Hin]; [rewrite text_eqb_refl in E; discriminate|].
    rewrite (IH Hnd' Hin). reflexivity.
Qed.

Lemma list_sum_map_add {A : Type} (f g : A -> nat) (l : list A) :
  list_sum (map (fun x => f x + g x) l) = list_sum (map f l) + list_sum (map g l).
Proof.
  induction l as [|x l IH]; simpl; [reflexivity|]. rewrite IH. lia.
Qed.

(** The groups split the records that have a key. *)
Lemma groups_split (keys : list text) (recs : list record) :
  NoDup keys ->
  (forall rec u, In rec recs -> rec_get "userId" rec = Some u -> In u keys) ->
  list_sum (map (fun k => List.length (filter (rec_user_is k) recs)) keys)
  = List.length (filter rec_has_user recs).
Proof.
  intros Hnd. induction recs as [|rec recs IH]; intros Hcov.
  - cbn [filter List.length]. clear.
    induction keys as [|k keys IH]; [reflexivity|].
    rewrite map_cons, list_sum_cons, IH. reflexivity.
  - assert (Hrest : list_sum (map (fun k => List.length (filter (rec_user_is k) recs)) keys)
                    = List.length (filter rec_has_user recs))
      by (apply IH; intros r u Hr; apply Hcov; right; exact Hr).
    assert (Hsplit : forall k, List.length (filter (rec_user_is k) (rec :: recs))
                               = (if rec_user_is k rec then 1 else 0)
                                 + List.length (filter (rec_user_is k) recs)).
    { intros k. cbn [filter]. destruct (rec_user_is k rec); reflexivity. }
    rewrite (map_ext _ _ Hsplit), list_sum_map_add, Hrest. cbn [filter].
    unfold rec_has_user, rec_user_is. destruct (rec_get "userId" rec) as [u|] eqn:E.
    + rewrite (one_key_count u keys Hnd (Hcov rec u (or_introl eq_refl) E)). reflexivity.
    + assert (H0 : list_sum (map (fun _ : text => 0) keys) = 0).
      { clear. induction keys as [|k keys IH]; [reflexivity|].
        rewrite map_cons, list_sum_cons, IH. reflexivity. }
      rewrite H0. reflexivity.
Qed.

(** X9: the [events] of a user's summary count the records with that
    [userId], at least one; overdraft crossings are at most the overdraft
    events, and these, the mismatches and the flow breaks at most the events;
    over all users the events add up to the number of records that have a
    [userId]. *)
Theorem per_user_counts (td : list (option text) -> list (option Z))
    (recs : list record) (out : analysis) :
  analyze td recs = Ok out ->
  Forall (fun s =>
            events s = List.length (filter (rec_user_is (user s)) recs)
            /\ 1 <= events s
            /\ overdraft_crossings s <= overdraft_events s <= events s
            /\ mismatches s <= events s
            /\ flow_breaks s <= events s) (per_user out)
  /\ list_sum (map events (per_user out)) = List.length (filter rec_has_user recs).
Proof.
  intros Hok. destruct (analyze_frame td recs out Hok) as (_ & _ & _ & Hpu).
  pose proof (fun u => per_user_user_in td recs out u Hok) as Hin.
  pose proof (per_user_users_NoDup td recs out Hok) as Hnd.
  split.
  - apply Forall_forall. intros s Hs. rewrite Hpu in Hs. apply in_map_iff in Hs.
    destruct Hs as (k & <- & Hk). cbn [events user overdraft_crossings overdraft_events
                                         mismatches flow_breaks summarize].
    set (g := filter (fun r => key_is userId k (ev r)) (df out)).
    assert (Hlen : List.length g = List.length (filter (rec_user_is k) recs))
      by (apply (user_rows_count td recs out k Hok)).
    split; [exact Hlen|]. split; [|split; [split|split]].
    + rewrite Hlen.
      assert (Hu : In k (map user (per_user out))).
      { rewrite Hpu, map_map. cbn [user summarize]. rewrite map_id. exact Hk. }
      apply Hin in Hu. destruct Hu as (rec & Hrec & Hget).
      assert (Hf : In rec (filter (rec_user_is k) recs)).
      { apply filter_In. split; [exact Hrec|]. unfold rec_user_is.
        rewrite Hget. apply text_eqb_refl. }
      destruct (filter (rec_user_is k) recs); [destruct Hf | simpl; lia].
    + apply count_true_le. intros r Hr Hc. apply filter_In in Hr. destruct Hr as [Hr _].
      destruct (proj2 (analyze_rows td recs out Hok) r Hr) as (rec & t & _ & He).
      rewrite He in Hc |- *. cbn [overdraft_cross overdraft_after event_of] in *.
      apply andb_prop in Hc. tauto.
    + apply count_true_length.
    + apply count_true_length.
    + apply count_true_length.
  - rewrite <- (groups_split (map user (per_user out)) recs Hnd).
    + rewrite map_map. apply f_equal. apply map_ext_in. intros s Hs.
      rewrite Hpu in Hs. apply in_map_iff in Hs. destruct Hs as (k & <- & Hk).
      cbn [events user summarize]. apply (user_rows_count td recs out k Hok).
    + intros rec u Hrec Hget. apply Hin. eauto.
Qed.

Lemma per_user_counts_witness :
  Forall (fun s =>
            events s = List.length (filter (rec_user_is (user s)) sample_records)
            /\ 1 <= events s
            /\ overdraft_crossings s <= overdraft_events s <= events s
            /\ mismatches s <= events s
            /\ flow_breaks s <= events s) (per_user sample_analysis)
  /\ list_sum (map events (per_user sample_analysis))
     = List.length (filter rec_has_user sample_records).
Proof.
  exact (per_user_counts sample_clock sample_records sample_analysis sample_analysis_ok).
Defined.

(** ** The first and the last time of a user *)

Lemma pick_from_min (l : list Z) (a : Z) :
  exists m, fold_left (fun acc x =>
                         match acc with
                         | None => Some x
                         | Some a => if Z.ltb x a then Some x else Some a
                         end) l (Some a) = Some m
            /\ In m (a :: l) /\ forall x, In x (a :: l) -> (m <= x)%Z.
Proof.
  revert a. induction l as [|y l IH]; intros a; cbn [fold_left].
  - exists a. split; [reflexivity|]. split; [left; reflexivity|].
    intros x [<-|[]]. lia.
  - destruct (Z.ltb y a) eqn:E.
    + apply Z.ltb_lt in E. destruct (IH y) as (m & Hm & Hin & Hle). exists m.
      split; [exact Hm|]. split; [right; exact Hin|].
      intros x [<-|Hx]; [|apply Hle; exact Hx].
      specialize (Hle y (or_introl eq_refl)). lia.
    + apply Z.ltb_ge in E. destruct (IH a) as (m & Hm & Hin & Hle). exists m.
      split; [exact Hm|]. split.
      * destruct Hin as [<-|Hin]; [left; reflexivity | right; right; exact Hin].
      * intros x [<-|[<-|Hx]].
        -- apply Hle. left; reflexivity.
        -- specialize (Hle a (or_introl eq_refl)). lia.
        -- apply Hle. right; exact Hx.
Qed.

Lemma pick_from_max (l : list Z) (a : Z) :
  exists m, fold_left (fun acc x =>
                         match acc with
                         | None => Some x
                         | Some a => if Z.gtb x a then Some x else Some a
                         end) l (Some a) = Some m
            /\ In m (a :: l) /\ forall x, In x (a :: l) -> (x <= m)%Z.
Proof.
  revert a. induction l as [|y l IH]; intros a; cbn [fold_left].
  - exists a. split; [reflexivity|]. split; [left; reflexivity|].
    intros x [<-|[]]. lia.
  - destruct (Z.gtb y a) eqn:E.
    + rewrite Z.gtb_ltb in E. apply Z.ltb_lt in E.
      destruct (IH y) as (m & Hm & Hin & Hle). exists m.
      split; [exact Hm|]. split; [right; exact Hin|].
      intros x [<-|Hx]; [|apply Hle; exact Hx].
      specialize (Hle y (or_introl eq_refl)). lia.
    + rewrite Z.gtb_ltb in E. apply Z.ltb_ge in E.
      destruct (IH a) as (m & Hm & Hin & Hle). exists m.
      split; [exact Hm|]. split.
      * destruct Hin as [<-|Hin]; [left; reflexivity | right; right; exact Hin].
      * intros x [<-|[<-|Hx]].
        -- apply Hle. left; reflexivity.
        -- specialize (Hle a (or_introl eq_refl)). lia.
        -- apply Hle. right; exact Hx.
Qed.

Lemma pick_min (l : list Z) :
  match pick Z.ltb l with
  | Some m => In m l /\ forall x, In x l -> (m <= x)%Z
  | None => l = []
  end.
Proof.
  unfold pick. destruct l as [|a l]; [reflexivity|]. cbn [fold_left].
  destruct (pick_from_min l a) as (m & -> & Hin & Hle). auto.
Qed.

Lemma pick_max (l : list Z) :
  match pick Z.gtb l with
  | Some m => In m l /\ forall x, In x l -> (x <= m)%Z
  | None => l = []
  end.
Proof.
  unfold pick. destruct l as [|a l]; [reflexivity|]. cbn [fold_left].
  destruct (pick_from_max l a) as (m & -> & Hin & Hle). auto.
Qed.

Lemma known_In {A : Type} (l : list (option A)) (x : A) : In x (known l) <-> In (Some x) l.
Proof.
  unfold known. rewrite in_flat_map. split.
  - intros ([y|] & Hy & Hx); [destruct Hx as [->|[]]; exact Hy | destruct Hx].
  - intros H. exists (Some x). split; [exact H | left; reflexivity].
Qed.

(** X10: in a user's summary, [first_ts] and [last_ts] are the earliest and
    the latest known time among the user's rows, so [first_ts] is never after
    [last_ts]; both are missing exactly when every row of the user has an
    unknown time. *)
Theorem per_user_first_last_ts (td : list (option text) -> list (option Z))
    (recs : list record) (out : analysis) (s : summary) :
  analyze td recs = Ok out -> In s (per_user out) ->
  let times := known (map (fun r => ts (ev r))
                        (filter (fun r => key_is userId (user s) (ev r)) (df out))) in
  match first_ts s, last_ts s with
  | Some a, Some b =>
      In a times /\ In b times /\ (a <= b)%Z
      /\ forall t, In t times -> (a <= t <= b)%Z
  | None, None => times = []
  | _, _ => False
  end.
Proof.
  intros Hok Hs. destruct (analyze_frame td recs out Hok) as (_ & _ & _ & Hpu).
  rewrite Hpu in Hs. apply in_map_iff in Hs. destruct Hs as (k & <- & Hk).
  cbn [first_ts last_ts user summarize]. cbv zeta.
  set (times := known (map (fun r => ts (ev r))
                         (filter (fun r => key_is userId k (ev r)) (df out)))).
  pose proof (pick_min times) as Hmin. pose proof (pick_max times) as Hmax.
  destruct (pick Z.ltb times) as [a|]; destruct (pick Z.gtb times) as [b|].
  - destruct Hmin as [Ha Hle], Hmax as [Hb Hge]. split; [exact Ha|]. split; [exact Hb|].
    split; [apply Hle; exact Hb|]. intros t Ht. split; [apply Hle | apply Hge]; exact Ht.
  - destruct Hmin as [Ha _]. rewrite Hmax in Ha. exact Ha.
  - destruct Hmax as [Hb _]. rewrite Hmin in Hb. exact Hb.
  - exact Hmin.
Qed.

Lemma sample_summary_In (i : nat) : i < 3 -> In (sample_summary i) (per_user sample_analysis).
Proof.
  intros H. apply nth_In.
  replace (List.length (per_user sample_analysis)) with 3 by (vm_compute; reflexivity).
  exact H.
Qed.

Lemma per_user_first_last_ts_witness :
  match first_ts (sample_summary 1), last_ts (sample_summary 1) with
  | Some a, Some b =>
      In a (known (map (fun r => ts (ev r))
                     (filter (fun r => key_is userId (user (sample_summary 1)) (ev r))
                             (df sample_analysis))))
      /\ In b (known (map (fun r => ts (ev r))
                        (filter (fun r => key_is userId (user (sample_summary 1)) (ev r))
                                (df sample_analysis))))
      /\ (a <= b)%Z
      /\ forall t,
           In t (known (map (fun r => ts (ev r))
                          (filter (fun r => key_is userId (user (sample_summary 1)) (ev r))
                                  (df sample_analysis)))) ->
           (a <= t <= b)%Z
  | None, None =>
      known (map (fun r => ts (ev r))
               (filter (fun r => key_is userId (user (sample_summary 1)) (ev r))
                       (df sample_analysis))) = []
  | _, _ => False
  end.
Proof.
  exact (per_user_first_last_ts sample_clock sample_records sample_analysis
           (sample_summary 1) sample_analysis_ok (sample_summary_In 1 ltac:(lia))).
Defined.

(** ** The sheets of the report *)

Lemma export_sheets (a : analysis) :
  sheet_rows "RedFlags" (export_excel a) = filter any_flag (df a)
  /\ sheet_rows "OverdraftEvents" (export_excel a)
     = filter (fun r => overdraft_after (ev r)) (df a)
  /\ sheet_rows "MismatchEvents" (export_excel a) = filter (fun r => mismatch (ev r)) (df a)
  /\ sheet_rows "FlowBreaks" (export_excel a) = filter flow_break (df a)
  /\ sheet_rows "Anomalies" (export_excel a) = filter delta_anomaly (df a)
  /\ sheet_rows "SampleRaw" (export_excel a) = firstn 200 (df a).
Proof.
  unfold sheet_rows, export_excel. destruct (nonempty (per_user a)); cbn; tauto.
Qed.

Lemma filter_or_length {A : Type} (f g : A -> bool) (l : list A) :
  List.length (filter (fun x => f x || g x) l)
  <= List.length (filter f l) + List.length (filter g l).
Proof.
  induction l as [|x l IH]; simpl; [lia|].
  destruct (f x), (g x); simpl; lia.
Qed.

(** X11: in the workbook [export_excel] writes, a row is on the RedFlags
    sheet exactly when it is on one of the sheets OverdraftEvents,
    MismatchEvents, FlowBreaks and Anomalies; these five sheets hold rows of
    the frame only, and RedFlags no more rows than the four others together;
    SampleRaw holds the first rows of the frame, 200 of them or all when
    there are fewer. *)
Theorem export_excel_sheets (a : analysis) :
  let w := export_excel a in
  (forall r, In r (sheet_rows "RedFlags" w)
             <-> In r (sheet_rows "OverdraftEvents" w) \/ In r (sheet_rows "MismatchEvents" w)
                 \/ In r (sheet_rows "FlowBreaks" w) \/ In r (sheet_rows "Anomalies" w))
  /\ incl (sheet_rows "RedFlags" w) (df a)
  /\ List.length (sheet_rows "RedFlags" w)
     <= List.length (sheet_rows "OverdraftEvents" w)
        + List.length (sheet_rows "MismatchEvents" w)
        + List.length (sheet_rows "FlowBreaks" w)
        + List.length (sheet_rows "Anomalies" w)
  /\ (exists rest, df a = sheet_rows "SampleRaw" w ++ rest)
  /\ List.length (sheet_rows "SampleRaw" w) = Nat.min 200 (List.length (df a)).
Proof.
  cbv zeta. destruct (export_sheets a) as (-> & -> & -> & -> & -> & ->).
  split; [|split; [|split; [|split]]].
  - intros r. rewrite !filter_In. unfold any_flag. rewrite !orb_true_iff. tauto.
  - intros r Hr. apply filter_In in Hr. tauto.
  - unfold any_flag.
    pose proof (filter_or_length
                  (fun r => overdraft_after (ev r) || mismatch (ev r) || flow_break r)
                  delta_anomaly (df a)) as H1.
    pose proof (filter_or_length
                  (fun r => overdraft_after (ev r) || mismatch (ev r))
                  flow_break (df a)) as H2.
    pose proof (filter_or_length
                  (fun r => overdraft_after (ev r)) (fun r => mismatch (ev r)) (df a)) as H3.
    lia.
  - exists (skipn 200 (df a)). symmetry. apply firstn_skipn.
  - apply length_firstn.
Qed.

(** ** How a run ends *)

Lemma export_excel_names (a : analysis) :
  per_user a <> [] -> map fst (export_excel a) = sheet_names.
Proof.
  intros H. unfold export_excel. destruct (per_user a); [contradiction|]. reflexivity.
Qed.

Lemma raise_key (td : list (option text) -> list (option Z)) (recs : list record) (e : exn) :
  analyze td recs = Raise e -> exists k, e = KeyError k /\ In k required_columns.
Proof.
  unfold analyze, enrich, sort_values, require, required_columns.
  destruct (has_col "newBalance" recs); [|intros [= <-]; eexists; simpl; eauto].
  destruct (has_col "oldBalance" recs); [|intros [= <-]; eexists; simpl; eauto].
  destruct (has_col "amount" recs); [|intros [= <-]; eexists; simpl; eauto].
  destruct (has_col "userId" recs); [|intros [= <-]; eexists; simpl; eauto 6].
  destruct (has_col "walletId" recs); [|intros [= <-]; eexists; simpl; eauto 7].
  discriminate.
Qed.


Lemma blocks_unmarked (ls : list text) :
  (forall l, In l ls -> recognised start_re l = false) -> blocks ls = [].
Proof.
  induction ls as [|l ls IH]; intros H; [reflexivity|].
  rewrite (blocks_skip l ls (H l (or_introl eq_refl))). apply IH.
  intros l' Hl'. apply H. right; exact Hl'.
Qed.

(** X13: when no line of any file is a start marker, [parse_logs] returns no
    record, and a run over such files ends neither by [SystemExit] nor with
    an empty report: [analyze] raises [KeyError] on [newBalance] and nothing
    catches it. *)
Theorem run_without_blocks (td : list (option text) -> list (option Z))
    (gz_files : list (text * list text)) :
  gz_files <> [] ->
  (forall f l, In f gz_files -> In l (snd f) -> recognised start_re (strip l) = false) ->
  parse_logs gz_files = []
  /\ analyze td (parse_logs gz_files) = Raise (KeyError "newBalance")
  /\ main td (Some gz_files) = Uncaught (KeyError "newBalance").
Proof.
  intros Hne Hno.
  assert (Hp : parse_logs gz_files = []).
  { unfold parse_logs. rewrite (parse_logs_from gz_files []). cbn [app].
    apply flat_map_all_nil. intros f Hf. rewrite blocks_unmarked; [reflexivity|].
    intros l Hl. apply in_map_iff in Hl. destruct Hl as (raw & <- & Hraw).
    apply (Hno f raw Hf Hraw). }
  split; [exact Hp|]. split.
  - rewrite Hp. reflexivity.
  - cbn [main]. destruct gz_files as [|f files]; [contradiction|].
    cbn [nonempty]. rewrite Hp. reflexivity.
Qed.

Lemma run_without_blocks_witness :
  parse_logs unmarked_log = []
  /\ analyze sample_clock (parse_logs unmarked_log) = Raise (KeyError "newBalance")
  /\ main sample_clock (Some unmarked_log) = Uncaught (KeyError "newBalance").
Proof.
  apply (run_without_blocks sample_clock unmarked_log).
  - discriminate.
  - intros f l Hf Hl. destruct Hf as [<-|[]].
    destruct Hl as [<-|[<-|[]]]; vm_compute; reflexivity.
Defined.

(** ** Exact credits and debits *)

Open Scope float_scope.

Lemma SFsub_self (x : spec_float) :
  SFfinite x -> SFsub prec emax x x = S754_zero false.
Proof.
  destruct x as [s|s| |s m e]; simpl; try contradiction; intros _.
  - destruct s; reflexivity.
  - rewrite Z.sub_diag. reflexivity.
Qed.

Lemma sub_self (x : float) : is_finite x = true -> Prim2SF (x - x) = S754_zero false.
Proof.
  intros H. rewrite sub_spec. apply SFsub_self. apply is_finite_SF. exact H.
Qed.

Lemma add_finite (x y : float) :
  is_finite x = true -> is_finite y = true -> is_nan (x + y) = false.
Proof.
  intros Hx Hy. rewrite <- sub_opp. apply sub_finite; [exact Hx|].
  rewrite opp_finite. exact Hy.
Qed.

Lemma small_not_below_zero (z : float) :
  Prim2SF z = S754_zero false -> (1e-6 <? abs z) = false.
Proof.
  intros H. rewrite ltb_spec, abs_spec, H. reflexivity.
Qed.

Lemma zero_le_abs (z y : float) :
  Prim2SF z = S754_zero false -> is_nan y = false -> (abs z <=? abs y) = true.
Proof.
  intros Hz Hy. apply not_nan_Prim2SF in Hy. rewrite leb_spec, !abs_spec, Hz.
  destruct (Prim2SF y) as [s|s| |s m e]; try reflexivity. congruence.
Qed.

Lemma abs_le_zero (z y : float) :
  Prim2SF z = S754_zero false -> (abs y <=? abs z) = true -> (1e-6 <? abs y) = false.
Proof.
  intros Hz. rewrite leb_spec, ltb_spec, !abs_spec, Hz.
  destruct (Prim2SF y) as [s|s| |s m e]; simpl; try reflexivity; discriminate.
Qed.

Lemma exact_amount_no_mismatch (a d : float) :
  is_finite a = true -> d = a \/ d = - a ->
  gtb (abs (d - a * best_sign a d)) 1e-6 = false.
Proof.
  intros Ha Hd. unfold gtb.
  assert (Hna : is_nan a = false).
  { unfold is_finite in Ha. destruct (is_nan a); [discriminate | reflexivity]. }
  assert (Hfo : is_finite (- a) = true) by (rewrite opp_finite; exact Ha).
  assert (Hno : is_nan (- a) = false).
  { unfold is_finite in Hfo. destruct (is_nan (- a)); [discriminate | reflexivity]. }
  destruct Hd as [->| ->].
  - assert (Hs : best_sign a a = 1).
    { unfold best_sign. rewrite Hna. cbn [orb].
      rewrite (zero_le_abs (a - a) (a + a) (sub_self a Ha) (add_finite a a Ha Ha)).
      reflexivity. }
    rewrite Hs, mul_one_r. apply small_not_below_zero. apply sub_self. exact Ha.
  - assert (Hz : Prim2SF (- a + a) = S754_zero false).
    { rewrite <- sub_opp. apply sub_self. exact Hfo. }
    unfold best_sign. rewrite Hna, Hno. cbn [orb].
    destruct (abs (- a - a) <=? abs (- a + a)) eqn:E.
    + rewrite mul_one_r. apply (abs_le_zero (- a + a) (- a - a) Hz E).
    + rewrite mul_minus_one_r. apply small_not_below_zero. apply sub_self. exact Hfo.
Qed.

(** X14: a row whose [delta] is exactly its finite [amount], or exactly the
    opposite of it, is never a mismatch. *)
Theorem exact_delta_never_mismatch (td : list (option text) -> list (option Z))
    (recs : list record) (out : analysis) (r : row) :
  analyze td recs = Ok out -> In r (df out) ->
  is_finite (amount (ev r)) = true ->
  delta (ev r) = amount (ev r) \/ delta (ev r) = - amount (ev r) ->
  mismatch (ev r) = false.
Proof.
  intros Hok Hr. destruct (proj2 (analyze_rows td recs out Hok) r Hr) as (rec & t & _ & He).
  rewrite He. cbn [amount delta mismatch event_of]. apply exact_amount_no_mismatch.
Qed.

Lemma exact_delta_never_mismatch_witness : mismatch (ev (sample_row 12)) = false.
Proof.
  apply (exact_delta_never_mismatch sample_clock sample_records sample_analysis
           (sample_row 12) sample_analysis_ok (sample_row_In 12 ltac:(lia))).
  - vm_compute. reflexivity.
  - right. vm_compute. reflexivity.
Defined.

Close Scope float_scope.

(** ** The balances of the summary *)

Lemma SFcompare_key (x y : spec_float) :
  x <> S754_nan -> y <> S754_nan ->
  match SFcompare x y with
  | Some Lt => key_lt (order_key x) (order_key y)
  | Some Eq => order_key x = order_key y
  | Some Gt => key_lt (order_key y) (order_key x)
  | None => False
  end.
Proof.
  intros Hx Hy.
  destruct x as [s1|s1| |s1 m1 e1]; destruct y as [s2|s2| |s2 m2 e2];
    try congruence.
  all: try (destruct s1, s2; cbn; (reflexivity || lia)).
  all: try (destruct s1; cbn; lia).
  all: try (destruct s2; cbn; lia).
  cbn [SFcompare order_key].
  change (Pos.compare_cont Eq m1 m2) with (Pos.compare m1 m2).
  destruct s1, s2; try (cbn; lia).
  - destruct (Z.compare_spec e1 e2) as [->|H|H].
    + destruct (Pos.compare_spec m1 m2) as [->|H|H]; cbn; try reflexivity; lia.
    + cbn. lia.
    + cbn. lia.
  - destruct (Z.compare_spec e1 e2) as [->|H|H].
    + destruct (Pos.compare_spec m1 m2) as [->|H|H]; cbn; try reflexivity; lia.
    + cbn. lia.
    + cbn. lia.
Qed.

Open Scope float_scope.

Lemma key_lt_trans (a b c : Z * Z * Z) : key_lt a b -> key_lt b c -> key_lt a c.
Proof.
  destruct a as [[r1 e1] m1], b as [[r2 e2] m2], c as [[r3 e3] m3]. unfold key_lt. lia.
Qed.

Lemma key_lt_irrefl (a : Z * Z * Z) : ~ key_lt a a.
Proof. destruct a as [[r1 e1] m1]. unfold key_lt. lia. Qed.

Lemma key_le_trans (a b c : Z * Z * Z) : key_le a b -> key_le b c -> key_le a c.
Proof.
  intros [H1| ->] [H2| ->]; unfold key_le; auto. left. exact (key_lt_trans _ _ _ H1 H2).
Qed.

Lemma key_le_lt_trans (a b c : Z * Z * Z) : key_le a b -> key_lt b c -> key_lt a c.
Proof. intros [H1| ->] H2; [exact (key_lt_trans _ _ _ H1 H2) | exact H2]. Qed.

Lemma ltb_key (x y : float) :
  is_nan x = false -> is_nan y = false ->
  ((x <? y) = true <-> key_lt (order_key (Prim2SF x)) (order_key (Prim2SF y))).
Proof.
  intros Hx Hy. apply not_nan_Prim2SF in Hx, Hy. rewrite ltb_spec. unfold SFltb.
  pose proof (SFcompare_key _ _ Hx Hy) as H.
  destruct (SFcompare (Prim2SF x) (Prim2SF y)) as [[| |]|]; try contradiction.
  - split; [discriminate|]. rewrite H. intros C. destruct (key_lt_irrefl _ C).
  - tauto.
  - split; [discriminate|]. intros C. destruct (key_lt_irrefl _ (key_lt_trans _ _ _ H C)).
Qed.

Lemma leb_key (x y : float) :
  is_nan x = false -> is_nan y = false ->
  ((x <=? y) = true <-> key_le (order_key (Prim2SF x)) (order_key (Prim2SF y))).
Proof.
  intros Hx Hy. apply not_nan_Prim2SF in Hx, Hy. rewrite leb_spec. unfold SFleb.
  pose proof (SFcompare_key _ _ Hx Hy) as H.
  destruct (SFcompare (Prim2SF x) (Prim2SF y)) as [[| |]|]; try contradiction.
  - split; [|reflexivity]. intros _. right. exact H.
  - split; [|reflexivity]. intros _. left. exact H.
  - split; [discriminate|]. intros [C|C].
    + destruct (key_lt_irrefl _ (key_lt_trans _ _ _ H C)).
    + rewrite C in H. destruct (key_lt_irrefl _ H).
Qed.

Lemma key_total (x y : float) :
  is_nan x = false -> is_nan y = false -> (x <? y) = false ->
  key_le (order_key (Prim2SF y)) (order_key (Prim2SF x)).
Proof.
  intros Hx Hy. apply not_nan_Prim2SF in Hx, Hy. rewrite ltb_spec. unfold SFltb.
  pose proof (SFcompare_key _ _ Hx Hy) as H.
  destruct (SFcompare (Prim2SF x) (Prim2SF y)) as [[| |]|]; try contradiction.
  - intros _. right. symmetry. exact H.
  - discriminate.
  - intros _. left. exact H.
Qed.

Lemma pick_from_least (l : list float) (a : float) :
  is_nan a = false -> Forall (fun x => is_nan x = false) l ->
  exists m, fold_left (fun acc x =>
                         match acc with
                         | None => Some x
                         | Some a => if x <? a then Some x else Some a
                         end) l (Some a) = Some m
            /\ In m (a :: l) /\ forall x, In x (a :: l) -> (m <=? x) = true.
Proof.
  revert a. induction l as [|y l IH]; intros a Ha Hl; cbn [fold_left].
  - exists a. split; [reflexivity|]. split; [left; reflexivity|].
    intros x [<-|[]]. apply leb_key; try assumption. right. reflexivity.
  - inversion Hl as [|? ? Hy Hl']; subst.
    assert (Hall : forall x, In x (a :: y :: l) -> is_nan x = false).
    { intros x [<-|[<-|Hx]]; try assumption. rewrite Forall_forall in Hl'. auto. }
    destruct (y <? a) eqn:E.
    + destruct (IH y Hy Hl') as (m & Hm & Hin & Hle). exists m.
      split; [exact Hm|]. split; [right; exact Hin|].
      assert (Hnm : is_nan m = false) by (apply Hall; right; exact Hin).
      intros x [<-|Hx]; [|apply Hle; exact Hx].
      apply leb_key; try assumption.
      apply (key_le_trans _ (order_key (Prim2SF y))).
      * apply leb_key; try assumption. apply Hle. left. reflexivity.
      * left. apply ltb_key; assumption.
    + destruct (IH a Ha Hl') as (m & Hm & Hin & Hle). exists m.
      split; [exact Hm|]. split.
      * destruct Hin as [<-|Hin]; [left; reflexivity | right; right; exact Hin].
      * assert (Hnm : is_nan m = false).
        { apply Hall. destruct Hin as [<-|Hin]; [left; reflexivity | right; right; exact Hin]. }
        intros x [<-|[<-|Hx]].
        -- apply Hle. left. reflexivity.
        -- apply leb_key; try assumption.
           apply (key_le_trans _ (order_key (Prim2SF a))).
           ++ apply leb_key; try assumption. apply Hle. left. reflexivity.
           ++ apply key_total; assumption.
        -- apply Hle. right. exact Hx.
Qed.

Lemma pick_from_greatest (l : list float) (a : float) :
  is_nan a = false -> Forall (fun x => is_nan x = false) l ->
  exists m, fold_left (fun acc x =>
                         match acc with
                         | None => Some x
                         | Some a => if gtb x a then Some x else Some a
                         end) l (Some a) = Some m
            /\ In m (a :: l) /\ forall x, In x (a :: l) -> (x <=? m) = true.
Proof.
  revert a. induction l as [|y l IH]; intros a Ha Hl; cbn [fold_left].
  - exists a. split; [reflexivity|]. split; [left; reflexivity|].
    intros x [<-|[]]. apply leb_key; try assumption. right. reflexivity.
  - inversion Hl as [|? ? Hy Hl']; subst.
    assert (Hall : forall x, In x (a :: y :: l) -> is_nan x = false).
    { intros x [<-|[<-|Hx]]; try assumption. rewrite Forall_forall in Hl'. auto. }
    change (gtb y a) with (a <? y). destruct (a <? y) eqn:E.
    + destruct (IH y Hy Hl') as (m & Hm & Hin & Hle). exists m.
      split; [exact Hm|]. split; [right; exact Hin|].
      assert (Hnm : is_nan m = false) by (apply Hall; right; exact Hin).
      intros x [<-|Hx]; [|apply Hle; exact Hx].
      apply leb_key; try assumption.
      apply (key_le_trans _ (order_key (Prim2SF y))).
      * left. apply ltb_key; assumption.
      * apply leb_key; try assumption. apply Hle. left. reflexivity.
    + destruct (IH a Ha Hl') as (m & Hm & Hin & Hle). exists m.
      split; [exact Hm|]. split.
      * destruct Hin as [<-|Hin]; [left; reflexivity | right; right; exact Hin].
      * assert (Hnm : is_nan m = false).
        { apply Hall. destruct Hin as [<-|Hin]; [left; reflexivity | right; right; exact Hin]. }
        intros x [<-|[<-|Hx]].
        -- apply Hle. left. reflexivity.
        -- apply leb_key; try assumption.
           apply (key_le_trans _ (order_key (Prim2SF a))).
           ++ apply key_total; assumption.
           ++ apply leb_key; try assumption. apply Hle. left. reflexivity.
        -- apply Hle. right. exact Hx.
Qed.

Lemma last_in {A : Type} (l : list A) (d : A) : l <> [] -> In (last l d) l.
Proof.
  induction l as [|x l IH]; [congruence|]. intros _. destruct l as [|y l].
  - left. reflexivity.
  - right. apply IH. discriminate.
Qed.

Lemma notna_all (l : list float) : Forall (fun x => is_nan x = false) (filter notna l).
Proof.
  apply Forall_forall. intros x Hx. apply filter_In in Hx. destruct Hx as [_ Hx].
  unfold notna in Hx. destruct (is_nan x); [discriminate | reflexivity].
Qed.

Lemma pick_least (l : list float) :
  Forall (fun x => is_nan x = false) l ->
  match pick ltb l with
  | Some m => In m l /\ forall x, In x l -> (m <=? x) = true
  | None => l = []
  end.
Proof.
  intros Hl. unfold pick. destruct l as [|a l]; [reflexivity|]. cbn [fold_left].
  inversion Hl as [|? ? Ha Hl']; subst.
  destruct (pick_from_least l a Ha Hl') as (m & -> & Hin & Hle). auto.
Qed.

Lemma pick_greatest (l : list float) :
  Forall (fun x => is_nan x = false) l ->
  match pick gtb l with
  | Some m => In m l /\ forall x, In x l -> (x <=? m) = true
  | None => l = []
  end.
Proof.
  intros Hl. unfold pick. destruct l as [|a l]; [reflexivity|]. cbn [fold_left].
  inversion Hl as [|? ? Ha Hl']; subst.
  destruct (pick_from_greatest l a Ha Hl') as (m & -> & Hin & Hle). auto.
Qed.

(** X15: in a user's summary, [min_balance], [max_balance] and
    [last_balance] are unknown together, exactly when the user has no known
    [newBalance]; otherwise each is one of the user's known balances, and
    every known balance, the last one included, lies between [min_balance]
    and [max_balance].  A user flagged [final_overdraft] has at least one
    overdraft event and a negative [min_balance]. *)
Theorem per_user_balances (td : list (option text) -> list (option Z))
    (recs : list record) (out : analysis) (s : summary) :
  analyze td recs = Ok out -> In s (per_user out) ->
  (known_balances (user s) (df out) = [] ->
     is_nan (min_balance s) = true /\ is_nan (max_balance s) = true
     /\ is_nan (last_balance s) = true /\ final_overdraft s = false)
  /\ (known_balances (user s) (df out) <> [] ->
       In (min_balance s) (known_balances (user s) (df out))
       /\ In (max_balance s) (known_balances (user s) (df out))
       /\ In (last_balance s) (known_balances (user s) (df out))
       /\ forall b, In b (known_balances (user s) (df out)) ->
            (min_balance s <=? b) = true /\ (b <=? max_balance s) = true)
  /\ (final_overdraft s = true ->
       1 <= overdraft_events s /\ (min_balance s <? 0) = true).
Proof.
  intros Hok Hs. destruct (analyze_frame td recs out Hok) as (_ & _ & _ & Hpu).
  rewrite Hpu in Hs. apply in_map_iff in Hs. destruct Hs as (k & <- & Hk).
  cbn [min_balance max_balance last_balance final_overdraft overdraft_events user summarize].
  cbv zeta. unfold last_known, known_balances.
  set (g := filter (fun r => key_is userId k (ev r)) (df out)).
  set (bal := filter notna (map (fun r => newBalance (ev r)) g)).
  pose proof (pick_least bal (notna_all _)) as Hmin.
  pose proof (pick_greatest bal (notna_all _)) as Hmax.
  assert (Hfull : bal <> [] ->
            In (float_or_nan (pick ltb bal)) bal /\ In (float_or_nan (pick gtb bal)) bal
            /\ In (last bal nan) bal
            /\ forall b, In b bal -> (float_or_nan (pick ltb bal) <=? b) = true
                                      /\ (b <=? float_or_nan (pick gtb bal)) = true).
  { intros Hne. destruct (pick ltb bal) as [a|]; [|contradiction].
    destruct (pick gtb bal) as [b|]; [|contradiction]. cbn [float_or_nan].
    destruct Hmin as [Ha Hle], Hmax as [Hb Hge].
    split; [exact Ha|]. split; [exact Hb|]. split; [apply last_in; exact Hne|].
    intros x Hx. split; [apply Hle | apply Hge]; exact Hx. }
  split; [|split].
  - intros He. rewrite He. cbn. repeat split; reflexivity.
  - exact Hfull.
  - intros Hf. destruct (ltb_not_nan _ _ Hf) as [Hl _].
    assert (Hne : bal <> []).
    { intros He. rewrite He in Hl. cbn in Hl. discriminate. }
    destruct (Hfull Hne) as (Hmn & _ & Hlast & Hbetween). split.
    + apply filter_In in Hlast. destruct Hlast as [Hlast _].
      apply in_map_iff in Hlast. destruct Hlast as (r & Hr & Hrg).
      assert (Ho : overdraft_after (ev r) = true).
      { assert (Hrd : In r (df out)) by (apply filter_In in Hrg; tauto).
        destruct (proj2 (analyze_rows td recs out Hok) r Hrd) as (rec & t & _ & He).
        rewrite He in Hr |- *. cbn [overdraft_after newBalance event_of] in *.
        rewrite Hr. exact Hf. }
      unfold count_true.
      assert (Hc : In r (filter (fun r => overdraft_after (ev r)) g))
        by (apply filter_In; auto).
      destruct (filter (fun r => overdraft_after (ev r)) g); [destruct Hc | simpl; lia].
    + assert (Hnm : is_nan (float_or_nan (pick ltb bal)) = false).
      { pose proof (notna_all (map (fun r => newBalance (ev r)) g)) as Hall.
        rewrite Forall_forall in Hall. apply Hall. exact Hmn. }
      apply ltb_key; [exact Hnm | reflexivity|].
      apply (key_le_lt_trans _ (order_key (Prim2SF (last bal nan)))).
      * apply leb_key; [exact Hnm | exact Hl|]. apply Hbetween. exact Hlast.
      * apply ltb_key; [exact Hl | reflexivity | exact Hf].
Qed.

Lemma per_user_balances_witness :
  (known_balances (user (sample_summary 1)) (df sample_analysis) = [] ->
     is_nan (min_balance (sample_summary 1)) = true
     /\ is_nan (max_balance (sample_summary 1)) = true
     /\ is_nan (last_balance (sample_summary 1)) = true
     /\ final_overdraft (sample_summary 1) = false)
  /\ (known_balances (user (sample_summary 1)) (df sample_analysis) <> [] ->
       In (min_balance (sample_summary 1))
          (known_balances (user (sample_summary 1)) (df sample_analysis))
       /\ In (max_balance (sample_summary 1))
             (known_balances (user (sample_summary 1)) (df sample_analysis))
       /\ In (last_balance (sample_summary 1))
             (known_balances (user (sample_summary 1)) (df sample_analysis))
       /\ forall b, In b (known_balances (user (sample_summary 1)) (df sample_analysis)) ->
            (min_balance (sample_summary 1) <=? b) = true
            /\ (b <=? max_balance (sample_summary 1)) = true)
  /\ (final_overdraft (sample_summary 1) = true ->
       1 <= overdraft_events (sample_summary 1)
       /\ (min_balance (sample_summary 1) <? 0) = true).
Proof.
  exact (per_user_balances sample_clock sample_records sample_analysis (sample_summary 1)
           sample_analysis_ok (sample_summary_In 1 ltac:(lia))).
Defined.

Close Scope float_scope.
